(** * GameplayUtils: the Blueprint function library of the plugin

    A shallow embedding of [UGameplayUtilsBPLibrary]
    (Plugins/GameplayUtils/Source/GameplayUtils/Private/GameplayUtilsBPLibrary.cpp):
    [SmoothRotatorInterp], [CalculateJumpVelocity] and [FindClosestActor].

    The library computes on the engine's [float] and on [FVector], whose
    components are [double] in the engine the plugin is built for: the code
    narrows to [float] where it assigns to one ([ZDiff], [XYDistance],
    [ZVelocity], [Distance]) and widens where a [float] meets a component.
    The two vector helpers are written once, over an interface [FloatOps] of
    the arithmetic they use, and read in two arithmetics:
    - [ieee]: [float] is IEEE-754 binary32 and the components of [FVector]
      are binary64, round to nearest even, through the Standard Library's
      executable specification [SpecFloat]; this is what the compiled code
      computes, NaN, infinities and signed zeros included;
    - [exact]: the real numbers, the same program with every rounding
      removed.
    The rotation helper goes through the engine's sine, cosine and arc cosine,
    which IEEE-754 does not pin down; it is read in exact arithmetic only.

    The functions of the engine that the library calls ([FVector], [FQuat],
    [FRotator] and [FMath] members) are not part of the plugin.  Those of the
    vector helpers are written after the engine's definitions (Core, Math:
    Vector.h, UnrealMathUtility.h, GenericPlatformMath.h); the conversions
    between rotators and quaternions and [FQuat::Slerp] are parameters of
    [SmoothRotatorInterp], with one instance written out.

    The editor module of the second plugin, PythonTools
    (Plugins/PythonTools/Source/PythonToolsEditor/Private), owns two
    pointers and otherwise calls into the editor; it is embedded as a state
    and error monad over those pointers and the list of the calls made.

    The first part holds the definitions, the second the properties. *)

From Stdlib Require Import ZArith List Bool Lia Reals Lra Psatz.
From Stdlib Require Import Floats.SpecFloat.
From Stdlib Require Import Sorting.Permutation.
From Stdlib Require Strings.String Strings.Ascii.
Import ListNotations.

Set Implicit Arguments.

(** ** The arithmetic of [float] *)

(** What the library uses of [float] and of [FVector::FReal], the type of
    the components of [FVector]: the operations, [FMath::Sqrt], the comparison
    [operator<], the constants that occur in it and in the engine functions it
    calls, and the two conversions.  One type carries the values of both: in
    the compiled code they are numbers of two formats, told apart by the
    operations. *)
Class FloatOps (float : Type) : Type := {
  (** [float] *)
  fsub : float -> float -> float;
  fmul : float -> float -> float;
  fdiv : float -> float -> float;
  fltb : float -> float -> bool;
  (** [0.0f], [0.5f] and [1.0f] *)
  f_zero : float;
  f_half : float;
  f_one : float;
  (** the engine's [SMALL_NUMBER] ([1.e-8f]) and [MAX_FLT]
      ([3.402823466e+38F]) *)
  SMALL_NUMBER : float;
  MAX_FLT : float;
  (** [FReal] *)
  radd : float -> float -> float;
  rsub : float -> float -> float;
  rmul : float -> float -> float;
  rdiv : float -> float -> float;
  rsqrt : float -> float;
  rltb : float -> float -> bool;
  (** [1.0] *)
  r_one : float;
  (** the conversion of an [FReal] to [float], as in [const float ZDiff =
      Direction.Z], and that of a [float] to [FReal] *)
  to_float : float -> float;
  to_real : float -> float
}.

Declare Scope flt_scope.
Delimit Scope flt_scope with flt.
Infix "-" := fsub : flt_scope.
Infix "*" := fmul : flt_scope.
Infix "/" := fdiv : flt_scope.
Infix "<?" := fltb : flt_scope.
(** [a > b] on floats is [b < a]: both are false when an operand is NaN. *)
Notation "a >? b" := (fltb b a) (at level 70) : flt_scope.

Declare Scope freal_scope.
Delimit Scope freal_scope with re.
Infix "+" := radd : freal_scope.
Infix "-" := rsub : freal_scope.
Infix "*" := rmul : freal_scope.
Infix "/" := rdiv : freal_scope.
Infix "<?" := rltb : freal_scope.
Notation "a >? b" := (rltb b a) (at level 70) : freal_scope.

(** *** IEEE-754 binary32 and binary64 *)

Module B32.

Definition prec : Z := 24.
Definition emax : Z := 128.

(** The binary32 value of an integer literal. *)
Definition of_Z (n : Z) : spec_float := binary_normalize prec emax n 0 false.

Definition zero : spec_float := S754_zero false.
Definition half : spec_float := S754_finite false 8388608 (-24).
Definition one : spec_float := S754_finite false 8388608 (-23).
(** [1.e-8f]: the binary32 number nearest to 10^-8. *)
Definition small_number : spec_float := S754_finite false 11258999 (-50).
(** [3.402823466e+38F]: (2^24 - 1) * 2^104. *)
Definition max_flt : spec_float := S754_finite false 16777215 104.

Definition is_finite (x : spec_float) : bool :=
  match x with S754_zero _ | S754_finite _ _ _ => true | _ => false end.

Definition is_zero (x : spec_float) : bool :=
  match x with S754_zero _ => true | _ => false end.

Definition is_nan (x : spec_float) : bool :=
  match x with S754_nan => true | _ => false end.

(** A zero, a positive finite number or [+infinity]. *)
Definition is_nonneg (x : spec_float) : bool :=
  match x with
  | S754_zero _ | S754_finite false _ _ | S754_infinity false => true
  | _ => false
  end.

(** A zero, a finite number or an infinity of sign [s]. *)
Definition signed (s : bool) (x : spec_float) : Prop :=
  x = S754_zero s \/ x = S754_infinity s \/ exists m e, x = S754_finite s m e.

(** The binary32 number 2^e, for a normal exponent [e]. *)
Definition pow2 (e : Z) : spec_float := S754_finite false 8388608 (e - 23).

(** The conversion of a number to [float]: its value rounded to binary32. *)
Definition of_real (x : spec_float) : spec_float :=
  match x with
  | S754_finite s m e => binary_round prec emax s m e
  | _ => x
  end.

End B32.

Module B64.

Definition prec : Z := 53.
Definition emax : Z := 1024.

(** The binary64 value of an integer literal. *)
Definition of_Z (n : Z) : spec_float := binary_normalize prec emax n 0 false.

Definition one : spec_float := S754_finite false 4503599627370496 (-52).

(** The binary64 number 2^e, for a normal exponent [e]. *)
Definition pow2 (e : Z) : spec_float := S754_finite false 4503599627370496 (e - 52).

(** The conversion of a [float] to [double]: the same value, exactly, in the
    format of binary64. *)
Definition of_float (x : spec_float) : spec_float :=
  match x with
  | S754_finite s m e => binary_round prec emax s m e
  | _ => x
  end.

End B64.

#[export] Instance ieee : FloatOps spec_float := {|
  fsub := SFsub B32.prec B32.emax;
  fmul := SFmul B32.prec B32.emax;
  fdiv := SFdiv B32.prec B32.emax;
  fltb := SFltb;
  f_zero := B32.zero;
  f_half := B32.half;
  f_one := B32.one;
  SMALL_NUMBER := B32.small_number;
  MAX_FLT := B32.max_flt;
  radd := SFadd B64.prec B64.emax;
  rsub := SFsub B64.prec B64.emax;
  rmul := SFmul B64.prec B64.emax;
  rdiv := SFdiv B64.prec B64.emax;
  rsqrt := SFsqrt B64.prec B64.emax;
  rltb := SFltb;
  r_one := B64.one;
  to_float := B32.of_real;
  to_real := B64.of_float
|}.

(** *** Exact arithmetic *)

Module Exact.

Definition ltb (a b : R) : bool := if Rlt_dec a b then true else false.

(** The real number a finite binary32 number stands for: [m * 2^e], with
    its sign. *)
Definition of_binary32 (x : spec_float) : R :=
  match x with
  | S754_finite s m (Zneg p) => IZR (cond_Zopp s (Zpos m)) / IZR (Z.pow_pos 2 p)
  | S754_finite s m e => IZR (cond_Zopp s (Zpos m) * 2 ^ e)
  | _ => 0
  end.

(** The constants are the real values of the binary32 constants. *)
Definition small_number : R := 11258999 / 1125899906842624.
Definition max_flt : R := 340282346638528859811704183484516925440.

End Exact.

#[export] Instance exact : FloatOps R := {|
  fsub := Rminus;
  fmul := Rmult;
  fdiv := Rdiv;
  fltb := Exact.ltb;
  f_zero := 0%R;
  f_half := (1 / 2)%R;
  f_one := 1%R;
  SMALL_NUMBER := Exact.small_number;
  MAX_FLT := Exact.max_flt;
  radd := Rplus;
  rsub := Rminus;
  rmul := Rmult;
  rdiv := Rdiv;
  rsqrt := sqrt;
  rltb := Exact.ltb;
  r_one := 1%R;
  to_float := fun x => x;
  to_real := fun x => x
|}.

(** *** The order of [operator<]

    In both arithmetics [<] is irreflexive and transitive; in IEEE-754 a
    NaN is less than nothing and nothing is less than a NaN. *)
Class FloatOrder {float : Type} (FO : FloatOps float) : Prop := {
  fltb_irrefl : forall a : float, (a <? a)%flt = false;
  fltb_trans : forall a b c : float,
    (a <? b)%flt = true -> (b <? c)%flt = true -> (a <? c)%flt = true
}.

Ltac compare_cases :=
  repeat match goal with
  | H : context [Z.compare ?x ?y] |- _ => destruct (Z.compare_spec x y)
  | H : context [Pos.compare ?x ?y] |- _ => destruct (Pos.compare_spec x y)
  | |- context [Z.compare ?x ?y] => destruct (Z.compare_spec x y)
  | |- context [Pos.compare ?x ?y] => destruct (Pos.compare_spec x y)
  end.

#[export] Instance ieee_order : FloatOrder ieee.
Proof.
  split; cbn; unfold SFltb, SFcompare.
  - intros a. destruct a as [[] | [] | | [] m e]; try reflexivity;
      rewrite Z.compare_refl;
      change (Pos.compare_cont Eq m m) with (Pos.compare m m);
      rewrite Pos.compare_refl; reflexivity.
  - intros a b c.
    destruct a as [[] | [] | | [] ma ea], b as [[] | [] | | [] mb eb],
             c as [[] | [] | | [] mc ec];
      try discriminate; try reflexivity;
      change (Pos.compare_cont Eq) with Pos.compare;
      intros H1 H2; compare_cases; cbn in *;
      try discriminate; try reflexivity; try lia.
Qed.

#[export] Instance exact_order : FloatOrder exact.
Proof.
  split; cbn; unfold Exact.ltb.
  - intros a. destruct (Rlt_dec a a); [lra | reflexivity].
  - intros a b c. destruct (Rlt_dec a b), (Rlt_dec b c), (Rlt_dec a c);
      intros; try reflexivity; try discriminate; lra.
Qed.

(** ** The engine's vectors *)

(** [FVector]: three components of type [FReal], [X], [Y] and [Z]. *)
Module FVec.
Record FVector (float : Type) : Type := mkFVector { X : float; Y : float; Z : float }.
End FVec.
Abbreviation FVector := FVec.FVector.
Abbreviation mkFVector := FVec.mkFVector.

Section Vectors.

Context {float : Type} {FO : FloatOps float}.
Local Abbreviation X := FVec.X.
Local Abbreviation Y := FVec.Y.
Local Abbreviation Z := FVec.Z.
Local Abbreviation FVector := (FVector float).

(** [FVector::operator-(const FVector&)]. *)
Definition vsub (A B : FVector) : FVector :=
  mkFVector (X A - X B)%re (Y A - Y B)%re (Z A - Z B)%re.

(** [FVector::operator*(FArg Scale)]:
    [TVector(X * (T)Scale, Y * (T)Scale, Z * (T)Scale)]. *)
Definition vscale (V : FVector) (Scale : float) : FVector :=
  mkFVector (X V * to_real Scale)%re (Y V * to_real Scale)%re
            (Z V * to_real Scale)%re.

(** [FVector::SizeSquared]. *)
Definition SizeSquared (V : FVector) : float :=
  (X V * X V + Y V * Y V + Z V * Z V)%re.

(** [FVector::Size]: [FMath::Sqrt(X*X + Y*Y + Z*Z)]. *)
Definition Size (V : FVector) : float := rsqrt (SizeSquared V).

(** [FMath::InvSqrt(double)]: [1.0 / sqrt(F)]. *)
Definition InvSqrt (F : float) : float := (r_one / rsqrt F)%re.

(** [FVector::Normalize(T Tolerance = SMALL_NUMBER)], the vector it leaves
    in place.  The engine documents it as "Normalize this vector in-place if
    it is larger than a given tolerance. Leaves it unchanged if not", the
    tolerance being the "minimum squared length of vector for
    normalization": the vector is scaled by [InvSqrt(SquareSum)] when
    [SquareSum > Tolerance], and is unchanged otherwise (the engine then
    returns [false], a result the library does not read). *)
Definition Normalize (V : FVector) : FVector :=
  let Tolerance := to_real SMALL_NUMBER in
  let SquareSum := SizeSquared V in
  if (SquareSum >? Tolerance)%re then
    let Scale := InvSqrt SquareSum in
    mkFVector (X V * Scale)%re (Y V * Scale)%re (Z V * Scale)%re
  else V.

(** [FVector::Distance(V1, V2)]:
    [Sqrt(Square(V2.X-V1.X) + Square(V2.Y-V1.Y) + Square(V2.Z-V1.Z))]. *)
Definition Distance (V1 V2 : FVector) : float :=
  rsqrt ((X V2 - X V1) * (X V2 - X V1)
         + (Y V2 - Y V1) * (Y V2 - Y V1)
         + (Z V2 - Z V1) * (Z V2 - Z V1))%re.

(** ** CalculateJumpVelocity *)

(** [UGameplayUtilsBPLibrary::CalculateJumpVelocity]. *)
Definition CalculateJumpVelocity (StartPos TargetPos : FVector)
    (GravityZ JumpTime : float) : FVector :=
  (* Calculate the XY direction and distance *)
  let Direction := vsub TargetPos StartPos in
  let ZDiff := to_float (Z Direction) in
  let Direction := mkFVector (X Direction) (Y Direction) (to_real f_zero) in
  let XYDistance := to_float (Size Direction) in
  let Direction := Normalize Direction in
  (* XY velocity needed to reach the target in the given time *)
  let XYVelocity := vscale Direction (XYDistance / JumpTime)%flt in
  (* v0 = (z - z0 - 0.5*a*t^2) / t *)
  let ZVelocity :=
    ((ZDiff - f_half * GravityZ * JumpTime * JumpTime) / JumpTime)%flt in
  mkFVector (X XYVelocity) (Y XYVelocity) (to_real ZVelocity).

(** The horizontal direction the function normalises: the offset with its
    [Z] overwritten by [0.0f]. *)
Definition HorizontalDirection (StartPos TargetPos : FVector) : FVector :=
  mkFVector (X TargetPos - X StartPos)%re (Y TargetPos - Y StartPos)%re
            (to_real f_zero).

(** *** The divisions of a call

    The same function, with every division it performs noted: a computation
    returns its result and the divisors of its divisions, in program
    order. *)
Definition Dividing (A : Type) : Type := (A * list float)%type.

Definition done {A : Type} (a : A) : Dividing A := (a, []).

Definition and_then {A B : Type} (c : Dividing A) (k : A -> Dividing B)
    : Dividing B :=
  let (a, divisors) := c in
  let (b, divisors') := k a in
  (b, divisors ++ divisors').

Local Notation "x <- c ;; k" := (and_then c (fun x => k))
  (at level 61, c at next level, right associativity).

(** [a / b] on [float] and on [FReal]. *)
Definition fdiv_noted (a b : float) : Dividing float := ((a / b)%flt, [b]).
Definition rdiv_noted (a b : float) : Dividing float := ((a / b)%re, [b]).

Definition InvSqrt_dividing (F : float) : Dividing float :=
  rdiv_noted r_one (rsqrt F).

Definition Normalize_dividing (V : FVector) : Dividing FVector :=
  let Tolerance := to_real SMALL_NUMBER in
  let SquareSum := SizeSquared V in
  if (SquareSum >? Tolerance)%re then
    Scale <- InvSqrt_dividing SquareSum ;;
    done (mkFVector (X V * Scale)%re (Y V * Scale)%re (Z V * Scale)%re)
  else done V.

Definition CalculateJumpVelocity_dividing (StartPos TargetPos : FVector)
    (GravityZ JumpTime : float) : Dividing FVector :=
  let Direction := vsub TargetPos StartPos in
  let ZDiff := to_float (Z Direction) in
  let Direction := mkFVector (X Direction) (Y Direction) (to_real f_zero) in
  let XYDistance := to_float (Size Direction) in
  Direction <- Normalize_dividing Direction ;;
  Speed <- fdiv_noted XYDistance JumpTime ;;
  let XYVelocity := vscale Direction Speed in
  ZVelocity <- fdiv_noted (ZDiff - f_half * GravityZ * JumpTime * JumpTime)%flt
                 JumpTime ;;
  done (mkFVector (X XYVelocity) (Y XYVelocity) (to_real ZVelocity)).

(** [FMath::Clamp(X, Min, Max)]: [X < Min ? Min : X < Max ? X : Max]. *)
Definition Clamp (x lo hi : float) : float :=
  if (x <? lo)%flt then lo else if (x <? hi)%flt then x else hi.

(** The interpolation parameter of [SmoothRotatorInterp]:
    [FMath::Clamp(DeltaTime * InterpSpeed, 0.0f, 1.0f)]. *)
Definition InterpAlpha (DeltaTime InterpSpeed : float) : float :=
  Clamp (DeltaTime * InterpSpeed)%flt f_zero f_one.

End Vectors.

(** Where a projectile launched from [start] with velocity [v0] is after
    time [t] under the constant acceleration [(0, 0, g)]:
    [start + v0*t + 0.5*(0,0,g)*t^2], in exact arithmetic. *)
Definition BallisticPosition (start v0 : FVector R) (g t : R) : FVector R :=
  mkFVector (FVec.X start + FVec.X v0 * t + 1 / 2 * 0 * (t * t))%R
            (FVec.Y start + FVec.Y v0 * t + 1 / 2 * 0 * (t * t))%R
            (FVec.Z start + FVec.Z v0 * t + 1 / 2 * g * (t * t))%R.

(** A vector with finite components: the inputs of the data model. *)
Definition finite_vector (V : FVector spec_float) : bool :=
  B32.is_finite (FVec.X V) && B32.is_finite (FVec.Y V) && B32.is_finite (FVec.Z V).

(** ** FindClosestActor *)

Section Actors.

Context {float : Type} {FO : FloatOps float}.
Local Open Scope flt_scope.

(** The actors of the level, and where each one is: what
    [AActor::GetActorLocation] returns on a live actor. *)
Variable AActor : Type.
Variable ActorLocation : AActor -> FVector float.

(** [AActor*]: [nullptr], or a pointer to an actor. *)
Definition AActorPtr : Type := option AActor.
Definition nullptr : AActorPtr := None.

Definition is_null (p : AActorPtr) : bool :=
  match p with None => true | Some _ => false end.

(** A computation that calls into actors threads the list of position
    queries made so far (oldest first); a call through a null pointer has no
    defined behaviour and yields [None]. *)
Definition Call (A : Type) : Type := list AActor -> option (A * list AActor).

Definition ret {A : Type} (a : A) : Call A := fun queries => Some (a, queries).

Definition bind {A B : Type} (c : Call A) (k : A -> Call B) : Call B :=
  fun queries =>
    match c queries with
    | None => None
    | Some (a, queries') => k a queries'
    end.

Local Notation "x <- c ;; k" := (bind c (fun x => k))
  (at level 61, c at next level, right associativity).

(** [Actor->GetActorLocation()]. *)
Definition GetActorLocation (Actor : AActorPtr) : Call (FVector float) :=
  fun queries =>
    match Actor with
    | None => None
    | Some a => Some (ActorLocation a, queries ++ [a])
    end.

(** The two reference parameters of [FindClosestActor]. *)
Record Outputs : Type := mkOutputs {
  OutClosestActor : AActorPtr;
  OutClosestDistance : float
}.

(** The body of the range-based [for] over [ActorArray]. *)
Definition visit (SourceLocation : FVector float) (Actor : AActorPtr)
    (out : Outputs) : Call Outputs :=
  if is_null Actor then ret out (* continue *)
  else
    Location <- GetActorLocation Actor ;;
    let Distance := to_float (Distance SourceLocation Location) in
    if Distance <? OutClosestDistance out
    then ret (mkOutputs Actor Distance)
    else ret out.

Fixpoint for_each (body : AActorPtr -> Outputs -> Call Outputs)
    (ActorArray : list AActorPtr) (out : Outputs) : Call Outputs :=
  match ActorArray with
  | [] => ret out
  | Actor :: rest => out' <- body Actor out ;; for_each body rest out'
  end.

(** [UGameplayUtilsBPLibrary::FindClosestActor]: the returned [bool] and
    the final values of the reference parameters. *)
Definition FindClosestActor (SourceLocation : FVector float)
    (ActorArray : list AActorPtr) : Call (bool * Outputs) :=
  let out := mkOutputs nullptr MAX_FLT in
  if Nat.eqb (length ActorArray) 0 then ret (false, out)
  else
    out <- for_each (visit SourceLocation) ActorArray out ;;
    ret (negb (is_null (OutClosestActor out)), out).

(** The distance the loop computes for an actor: [const float Distance]. *)
Definition DistanceTo (SourceLocation : FVector float) (a : AActor) : float :=
  to_float (Distance SourceLocation (ActorLocation a)).

(** What one iteration does to the reference parameters. *)
Definition step (SourceLocation : FVector float) (out : Outputs)
    (Actor : AActorPtr) : Outputs :=
  match Actor with
  | None => out
  | Some a =>
      if DistanceTo SourceLocation a <? OutClosestDistance out
      then mkOutputs Actor (DistanceTo SourceLocation a)
      else out
  end.

(** The initial values of the reference parameters. *)
Definition initial : Outputs := mkOutputs nullptr MAX_FLT.

(** Two distances neither of which is less than the other: on numbers, equal
    distances. *)
Definition tied (x y : float) : Prop := (x <? y) = false /\ (y <? x) = false.


(** The non-null entries of an array, in array order. *)
Fixpoint live (ActorArray : list AActorPtr) : list AActor :=
  match ActorArray with
  | [] => []
  | None :: rest => live rest
  | Some a :: rest => a :: live rest
  end.

End Actors.

Arguments nullptr {AActor}.
Arguments Outputs float AActor : clear implicits.
Arguments mkOutputs {float AActor}.
Arguments initial {float FO AActor}.

(** Of the results of two searches, the second if its distance is less than
    that of the first, the first otherwise. *)
Definition closer {float : Type} {FO : FloatOps float} {AActor : Type}
    (r1 r2 : bool * Outputs float AActor) : bool * Outputs float AActor :=
  if (OutClosestDistance (snd r2) <? OutClosestDistance (snd r1))%flt then r2 else r1.

(** *** Two levels *)

(** Scenario S5 of the specification: A at (10,0,0), B and C at (5,0,0),
    seen from the origin, in the arithmetic of the compiled code. *)
Module S5.

Inductive Actor : Type := ActorA | ActorB | ActorC.

Definition Location (a : Actor) : FVector spec_float :=
  match a with
  | ActorA => mkFVector (B64.of_Z 10) (B64.of_Z 0) (B64.of_Z 0)
  | ActorB => mkFVector (B64.of_Z 5) (B64.of_Z 0) (B64.of_Z 0)
  | ActorC => mkFVector (B64.of_Z 5) (B64.of_Z 0) (B64.of_Z 0)
  end.

Definition Source : FVector spec_float :=
  mkFVector (B64.of_Z 0) (B64.of_Z 0) (B64.of_Z 0).

Definition Entities : list (AActorPtr Actor) :=
  [nullptr; Some ActorA; Some ActorB; nullptr; Some ActorC].

End S5.

(** Two actors at [(MAX_FLT, 0, 0)], seen from the origin, in either
    arithmetic. *)
Module Far.

Inductive Actor : Type := Far1 | Far2.

Definition Location {float : Type} {FO : FloatOps float} (a : Actor) : FVector float :=
  mkFVector (to_real MAX_FLT) (to_real f_zero) (to_real f_zero).

Definition Source {float : Type} {FO : FloatOps float} : FVector float :=
  mkFVector (to_real f_zero) (to_real f_zero) (to_real f_zero).

End Far.

(** One actor at [(2^65, 0, 0)], seen from the origin: its distance, 2^65, is
    a [float], though the square of 2^65 is not. *)
Module Remote.

Inductive Actor : Type := Remote1.

Definition Location (a : Actor) : FVector spec_float :=
  mkFVector (B64.pow2 65) (B64.of_Z 0) (B64.of_Z 0).

Definition Source : FVector spec_float :=
  mkFVector (B64.of_Z 0) (B64.of_Z 0) (B64.of_Z 0).

End Remote.

(** One actor at [(3, 4, 0)], five units from the origin, in exact
    arithmetic. *)
Module Near.

Inductive Actor : Type := Near1.

Definition Location (a : Actor) : FVector R := mkFVector 3%R 4%R 0%R.

Definition Source : FVector R := mkFVector 0%R 0%R 0%R.

Definition Entities : list (AActorPtr Actor) := [Some Near1].

End Near.

(** ** SmoothRotatorInterp *)

(** [FRotator]: Euler angles in degrees. *)
Record FRotator : Type := mkFRotator { Pitch : R; Yaw : R; Roll : R }.

(** [FQuat]: four components, [X], [Y], [Z] and [W]. *)
Module FQ.
Record FQuat : Type := mkFQuat { X : R; Y : R; Z : R; W : R }.
End FQ.
Abbreviation FQuat := FQ.FQuat.
Abbreviation mkFQuat := FQ.mkFQuat.

Section Quaternions.

Local Open Scope R_scope.
Local Abbreviation X := FQ.X.
Local Abbreviation Y := FQ.Y.
Local Abbreviation Z := FQ.Z.
Local Abbreviation W := FQ.W.

(** [FQuat::operator|]: the dot product. *)
Definition qdot (A B : FQuat) : R :=
  X A * X B + Y A * Y B + Z A * Z B + W A * W B.

(** [FQuat::SizeSquared]. *)
Definition qSizeSquared (Q : FQuat) : R :=
  X Q * X Q + Y Q * Y Q + Z Q * Z Q + W Q * W Q.

(** [FQuat::operator-()]: the same rotation, the other sign. *)
Definition qneg (Q : FQuat) : FQuat := mkFQuat (- X Q) (- Y Q) (- Z Q) (- W Q).

(** [FQuat::Identity]. *)
Definition qIdentity : FQuat := mkFQuat 0 0 0 1.

(** [FMath::FloatSelect(Comparand, ValueGEZero, ValueLTZero)]:
    [Comparand >= 0.f ? ValueGEZero : ValueLTZero]. *)
Definition FloatSelect (Comparand ValueGEZero ValueLTZero : R) : R :=
  if Rle_dec 0 Comparand then ValueGEZero else ValueLTZero.

(** [0.9999f], the cosine above which the engine interpolates linearly. *)
Definition SLERP_LINEAR_COSOM : R := 16775538 / 16777216.

(** Modelled from the spec: [FQuat::Slerp_NotNormalized] is the engine's and
    is not in the repository.  Section 4.1 gives it as: "if the dot product
    of the two quaternions is negative, negate one of them so the
    interpolation takes the shorter arc", then "spherical linear
    interpolation with parameter t", where "implementations may fall back to
    normalized linear interpolation when the angular separation is below a
    small epsilon".  The definition has the shape of the engine's: the
    cosine is made non-negative, the weights are
    [sin((1-t)*Omega)/sin(Omega)] and [sin(t*Omega)/sin(Omega)], or
    [1-t] and [t] when the cosine is at least [0.9999f], and the second
    weight changes sign when the raw cosine is negative. *)
Definition Slerp_NotNormalized (Quat1 Quat2 : FQuat) (Slerp : R) : FQuat :=
  let RawCosom := qdot Quat1 Quat2 in
  let Cosom := FloatSelect RawCosom RawCosom (- RawCosom) in
  let Scales :=
    if Exact.ltb Cosom SLERP_LINEAR_COSOM then
      let Omega := acos Cosom in
      let InvSin := 1 / sin Omega in
      (sin ((1 - Slerp) * Omega) * InvSin, sin (Slerp * Omega) * InvSin)
    else (1 - Slerp, Slerp) in
  let Scale0 := fst Scales in
  let Scale1 := FloatSelect RawCosom (snd Scales) (- snd Scales) in
  mkFQuat (Scale0 * X Quat1 + Scale1 * X Quat2)
          (Scale0 * Y Quat1 + Scale1 * Y Quat2)
          (Scale0 * Z Quat1 + Scale1 * Z Quat2)
          (Scale0 * W Quat1 + Scale1 * W Quat2).

(** Modelled from the spec: [FQuat::GetNormalized] is the engine's; section
    4.1, step 4, "renormalize".  As in the engine, a quaternion whose squared
    length is below [SMALL_NUMBER] becomes the identity. *)
Definition GetNormalized (Q : FQuat) : FQuat :=
  let SquareSum := qSizeSquared Q in
  if Rle_dec SMALL_NUMBER SquareSum then
    let Scale := InvSqrt SquareSum in
    mkFQuat (X Q * Scale) (Y Q * Scale) (Z Q * Scale) (W Q * Scale)
  else qIdentity.

(** Modelled from the spec: [FQuat::Slerp], steps 2 to 4 of section 4.1. *)
Definition Slerp (Quat1 Quat2 : FQuat) (Alpha : R) : FQuat :=
  GetNormalized (Slerp_NotNormalized Quat1 Quat2 Alpha).

(** The two weights of [Slerp_NotNormalized], before the sign of the second
    follows that of the raw cosine. *)
Definition SlerpScales (Cosom Alpha : R) : R * R :=
  if Exact.ltb Cosom SLERP_LINEAR_COSOM then
    (sin ((1 - Alpha) * acos Cosom) * (1 / sin (acos Cosom)),
     sin (Alpha * acos Cosom) * (1 / sin (acos Cosom)))
  else (1 - Alpha, Alpha).

(** [Scale0 * A + Scale1 * B], the combination [Slerp_NotNormalized] ends in. *)
Definition qcomb (Scale0 : R) (A : FQuat) (Scale1 : R) (B : FQuat) : FQuat :=
  mkFQuat (Scale0 * X A + Scale1 * X B)
          (Scale0 * Y A + Scale1 * Y B)
          (Scale0 * Z A + Scale1 * Z B)
          (Scale0 * W A + Scale1 * W B).

(** Two quaternions that denote the same rotation: equal up to sign. *)
Definition same_rotation (A B : FQuat) : Prop := A = B \/ A = qneg B.

(** The angle, in radians, of the rotation that takes the orientation of one
    unit quaternion to that of another. *)
Definition angular_distance (A B : FQuat) : R := 2 * acos (Rabs (qdot A B)).

End Quaternions.

Section Interp.

Local Open Scope R_scope.

(** The engine functions the library calls: the conversions
    [FRotator::Quaternion] and [FQuat::Rotator], and [FQuat::Slerp]. *)
Variable Quaternion : FRotator -> FQuat.
Variable Rotator : FQuat -> FRotator.
Variable QuatSlerp : FQuat -> FQuat -> R -> FQuat.

(** The quaternion [SmoothRotatorInterp] converts back: [ResultQuat]. *)
Definition ResultQuat (Current Target : FRotator)
    (DeltaTime InterpSpeed : R) : FQuat :=
  let CurrentQuat := Quaternion Current in
  let TargetQuat := Quaternion Target in
  QuatSlerp CurrentQuat TargetQuat (InterpAlpha DeltaTime InterpSpeed).

(** [UGameplayUtilsBPLibrary::SmoothRotatorInterp]. *)
Definition SmoothRotatorInterp (Current Target : FRotator)
    (DeltaTime InterpSpeed : R) : FRotator :=
  Rotator (ResultQuat Current Target DeltaTime InterpSpeed).

(** A rotator that is the conversion of a quaternion of the orientation of
    [Q]: it denotes that orientation up to the quaternion-to-Euler round
    trip. *)
Definition denotes (Result : FRotator) (Q : FQuat) : Prop :=
  exists Q', same_rotation Q' Q /\ Result = Rotator Q'.

End Interp.

(** *** The engine's Tait-Bryan convention

    [FRotator::Quaternion] and [FQuat::Rotator] as the engine defines them,
    in exact arithmetic: one conforming pair of conversions, on which the
    general statements below are instantiated. *)
Module TaitBryan.

Section Conversions.
Local Open Scope R_scope.

Definition Quaternion (Rot : FRotator) : FQuat :=
  let DEG_TO_RAD := PI / 180 in
  let RADS_DIVIDED_BY_2 := DEG_TO_RAD / 2 in
  let SP := sin (Pitch Rot * RADS_DIVIDED_BY_2) in
  let CP := cos (Pitch Rot * RADS_DIVIDED_BY_2) in
  let SY := sin (Yaw Rot * RADS_DIVIDED_BY_2) in
  let CY := cos (Yaw Rot * RADS_DIVIDED_BY_2) in
  let SR := sin (Roll Rot * RADS_DIVIDED_BY_2) in
  let CR := cos (Roll Rot * RADS_DIVIDED_BY_2) in
  mkFQuat (CR * SP * SY - SR * CP * CY)
          (- CR * SP * CY - SR * CP * SY)
          (CR * CP * SY - SR * SP * CY)
          (CR * CP * CY + SR * SP * SY).

(** [FMath::Atan2(Y, X)]. *)
Definition Atan2 (y x : R) : R :=
  if Rlt_dec 0 x then atan (y / x)
  else if Rlt_dec x 0 then
    if Rle_dec 0 y then atan (y / x) + PI else atan (y / x) - PI
  else if Rlt_dec 0 y then PI / 2
  else if Rlt_dec y 0 then - (PI / 2)
  else 0.

(** [FRotator::NormalizeAxis]: the angle brought into (-180, 180]. *)
Definition NormalizeAxis (Angle : R) : R :=
  let Angle := Angle - 360 * IZR (Int_part (Angle / 360)) in
  if Rlt_dec 180 Angle then Angle - 360 else Angle.

(** [0.4999995f]. *)
Definition SINGULARITY_THRESHOLD : R := 16777199 / 33554432.

Definition Rotator (Q : FQuat) : FRotator :=
  let X := FQ.X Q in
  let Y := FQ.Y Q in
  let Z := FQ.Z Q in
  let W := FQ.W Q in
  let SingularityTest := Z * X - W * Y in
  let YawY := 2 * (W * Z + X * Y) in
  let YawX := 1 - 2 * (Y * Y + Z * Z) in
  let RAD_TO_DEG := 180 / PI in
  if Rlt_dec SingularityTest (- SINGULARITY_THRESHOLD) then
    let Yaw := Atan2 YawY YawX * RAD_TO_DEG in
    mkFRotator (-90) Yaw (NormalizeAxis (- Yaw - 2 * Atan2 X W * RAD_TO_DEG))
  else if Rlt_dec SINGULARITY_THRESHOLD SingularityTest then
    let Yaw := Atan2 YawY YawX * RAD_TO_DEG in
    mkFRotator 90 Yaw (NormalizeAxis (Yaw - 2 * Atan2 X W * RAD_TO_DEG))
  else
    mkFRotator (asin (2 * SingularityTest) * RAD_TO_DEG)
               (Atan2 YawY YawX * RAD_TO_DEG)
               (Atan2 (-2 * (W * X + Y * Z)) (1 - 2 * (X * X + Y * Y)) * RAD_TO_DEG).

End Conversions.

End TaitBryan.

(** ** PythonTools: the editor module

    A shallow embedding of [FPythonToolsEditorStyle]
    (PythonToolsEditorStyle.cpp), [FPythonToolsEditorCommands]
    (PythonToolsEditorCommands.h, .cpp) and [FPythonToolsEditorModule]
    (PythonToolsEditor.cpp).  The module owns two pointers, the style set and
    the command list; everything else it does is a call into the editor,
    which is kept as the list of the calls made, in order.
    [FPythonToolsEditorModule::RegisterMenus], which the editor calls back,
    works on the editor's menus only and is left out. *)
Module PythonTools.

Import Stdlib.Strings.String.
Local Open Scope string_scope.

(** *** What the editor answers *)

(** The answers of the editor and of the Python plugin that the module
    reads. *)
Record Engine : Type := {
  (** [IPythonScriptPlugin::IsAvailable()] *)
  IsAvailable : bool;
  (** what [IPythonScriptPlugin::ExecPythonCommand] returns on a script *)
  ExecPythonCommandResult : string -> bool;
  (** [FSlateApplication::IsInitialized()] *)
  SlateIsInitialized : bool;
  (** [IPluginManager::Get().FindPlugin(Name)]: null, or a plugin, of which
      the module reads [GetBaseDir()] *)
  FindPlugin : string -> option string;
  (** [FPaths::ProjectPluginsDir()], [FPaths::ProjectContentDir()],
      [FPaths::Combine], [FPaths::ConvertRelativePathToFull] and
      [FString::operator/] *)
  ProjectPluginsDir : string;
  ProjectContentDir : string;
  Combine : list string -> string;
  ConvertRelativePathToFull : string -> string;
  PathAppend : string -> string -> string
}.

(** *** The style set *)

(** [FVector2D], of two [float]s. *)
Definition FVector2D : Type := (spec_float * spec_float)%type.

(** [FSlateImageBrush(ImageName, ImageSize)]. *)
Record FSlateImageBrush : Type := {
  ImageName : string;
  ImageSize : FVector2D
}.

(** [FSlateStyleSet]: its name, its content root and the brushes set in it,
    latest first. *)
Record FSlateStyleSet : Type := {
  StyleSetName : string;
  ContentRootDir : string;
  BrushResources : list (string * FSlateImageBrush)
}.

(** [FSlateStyleSet::SetContentRoot]. *)
Definition SetContentRoot (Style : FSlateStyleSet) (InContentRootDir : string)
    : FSlateStyleSet :=
  {| StyleSetName := StyleSetName Style;
     ContentRootDir := InContentRootDir;
     BrushResources := BrushResources Style |}.

(** [FSlateStyleSet::Set(PropertyName, InBrush)]. *)
Definition SetBrush (Style : FSlateStyleSet) (PropertyName : string)
    (InBrush : FSlateImageBrush) : FSlateStyleSet :=
  {| StyleSetName := StyleSetName Style;
     ContentRootDir := ContentRootDir Style;
     BrushResources := (PropertyName, InBrush) :: BrushResources Style |}.

(** [FSlateStyleSet::RootToContentDir(RelativePath, Extension)]:
    [(ContentRootDir / RelativePath) + Extension]. *)
Definition RootToContentDir (E : Engine) (Style : FSlateStyleSet)
    (RelativePath Extension : string) : string :=
  PathAppend E (ContentRootDir Style) RelativePath ++ Extension.

(** The macro [IMAGE_BRUSH(RelativePath, ...)]:
    [FSlateImageBrush(RootToContentDir(RelativePath, TEXT(".png")), ...)],
    with [RootToContentDir] defined as [Style->RootToContentDir]. *)
Definition IMAGE_BRUSH (E : Engine) (Style : FSlateStyleSet)
    (RelativePath : string) (Size : FVector2D) : FSlateImageBrush :=
  {| ImageName := RootToContentDir E Style RelativePath ".png";
     ImageSize := Size |}.

(** [ISlateStyle::GetBrush(PropertyName)], when the style has the brush. *)
Fixpoint GetBrush (Brushes : list (string * FSlateImageBrush))
    (PropertyName : string) : option FSlateImageBrush :=
  match Brushes with
  | [] => None
  | (Name, Brush) :: rest =>
      if String.eqb Name PropertyName then Some Brush else GetBrush rest PropertyName
  end.

(** *** The calls into the editor *)

Inductive ELogVerbosity : Type := Log | Warning.

(** A call that changes something outside the module. *)
Inductive Effect : Type :=
  (** [FSlateStyleRegistry::RegisterSlateStyle], [UnRegisterSlateStyle] *)
  | RegisterSlateStyle (Style : FSlateStyleSet)
  | UnRegisterSlateStyle (Style : FSlateStyleSet)
  (** [FSlateApplication::Get().GetRenderer()->ReloadTextureResources()] *)
  | ReloadTextureResources
  (** [FPythonToolsEditorCommands::Register()], [Unregister()] *)
  | RegisterCommandContext
  | UnregisterCommandContext
  (** [UToolMenus::RegisterStartupCallback], [UnRegisterStartupCallback],
      [UnregisterOwner] *)
  | RegisterStartupCallback
  | UnRegisterStartupCallback
  | UnregisterOwner
  (** [IPythonScriptPlugin::AddPythonPath], [ExecPythonCommand] *)
  | AddPythonPath (Path : string)
  | ExecPythonCommand (Script : string)
  (** [UE_LOG(LogTemp, Verbosity, Message)] *)
  | UE_LOG (Verbosity : ELogVerbosity) (Message : string)
  (** an [ensure] whose condition is false *)
  | EnsureFailed.

(** What [FUICommandList::MapAction] binds the plugin's command to. *)
Inductive FExecuteAction : Type := CallPluginButtonClicked.

(** [FUICommandList]: the actions mapped so far. *)
Definition FUICommandList : Type := list FExecuteAction.

(** *** The state of the module *)

(** The static [FPythonToolsEditorStyle::StyleInstance], the member
    [FPythonToolsEditorModule::PluginCommands], both shared pointers that may
    be null, and the calls made into the editor, oldest first. *)
Record State : Type := {
  StyleInstance : option FSlateStyleSet;
  PluginCommands : option FUICommandList;
  Effects : list Effect
}.

(** A computation of the module; dereferencing a null shared pointer stops
    it ([None]). *)
Definition Editor (A : Type) : Type := State -> option (A * State).

Definition ret {A : Type} (a : A) : Editor A := fun s => Some (a, s).

Definition bind {A B : Type} (c : Editor A) (k : A -> Editor B) : Editor B :=
  fun s =>
    match c s with
    | None => None
    | Some (a, s') => k a s'
    end.

Local Notation "x <- c ;; k" := (bind c (fun x => k))
  (at level 61, c at next level, right associativity).
Local Notation "c ;; k" := (bind c (fun _ => k))
  (at level 61, right associativity).

Definition call (e : Effect) : Editor unit :=
  fun s => Some (tt, {| StyleInstance := StyleInstance s;
                        PluginCommands := PluginCommands s;
                        Effects := (Effects s ++ [e])%list |}).

(** [*Pointer] and [Pointer->]. *)
Definition deref {A : Type} (Pointer : option A) : Editor A :=
  fun s => match Pointer with None => None | Some a => Some (a, s) end.

(** [TSharedPtr::IsValid]. *)
Definition IsValid {A : Type} (Pointer : option A) : bool :=
  match Pointer with None => false | Some _ => true end.

(** [TSharedPtr::IsUnique]: the module never copies its pointers, so a valid
    one is the only reference to its object. *)
Definition IsUnique {A : Type} (Pointer : option A) : bool := IsValid Pointer.

(** [ensure(Condition)]: reports a failed condition and goes on. *)
Definition ensure (Condition : bool) : Editor unit :=
  if Condition then ret tt else call EnsureFailed.

Definition get_StyleInstance : Editor (option FSlateStyleSet) :=
  fun s => Some (StyleInstance s, s).

Definition set_StyleInstance (Pointer : option FSlateStyleSet) : Editor unit :=
  fun s => Some (tt, {| StyleInstance := Pointer;
                        PluginCommands := PluginCommands s;
                        Effects := Effects s |}).

Definition get_PluginCommands : Editor (option FUICommandList) :=
  fun s => Some (PluginCommands s, s).

Definition set_PluginCommands (Pointer : option FUICommandList) : Editor unit :=
  fun s => Some (tt, {| StyleInstance := StyleInstance s;
                        PluginCommands := Pointer;
                        Effects := Effects s |}).

(** *** FPythonToolsEditorStyle *)

(** [FPythonToolsEditorStyle::GetStyleSetName]. *)
Definition GetStyleSetName : string := "PythonToolsEditorStyle".

Definition Icon16x16 : FVector2D := (B32.of_Z 16, B32.of_Z 16).
Definition Icon20x20 : FVector2D := (B32.of_Z 20, B32.of_Z 20).

(** [FPythonToolsEditorStyle::Create]. *)
Definition Create (E : Engine) : Editor FSlateStyleSet :=
  let Style := {| StyleSetName := "PythonToolsEditorStyle";
                  ContentRootDir := "";
                  BrushResources := [] |} in
  BaseDir <- deref (FindPlugin E "PythonTools") ;;
  let Style := SetContentRoot Style (PathAppend E BaseDir "Resources") in
  let Style := SetBrush Style "PythonToolsEditor.PluginAction"
                 (IMAGE_BRUSH E Style "ButtonIcon_40x" Icon20x20) in
  ret Style.

(** [FPythonToolsEditorStyle::Initialize]. *)
Definition Initialize (E : Engine) : Editor unit :=
  Instance <- get_StyleInstance ;;
  if negb (IsValid Instance) then
    Style <- Create E ;;
    set_StyleInstance (Some Style) ;;
    Instance <- get_StyleInstance ;;
    Style <- deref Instance ;;
    call (RegisterSlateStyle Style)
  else ret tt.

(** [FPythonToolsEditorStyle::Shutdown]. *)
Definition Shutdown : Editor unit :=
  Instance <- get_StyleInstance ;;
  Style <- deref Instance ;;
  call (UnRegisterSlateStyle Style) ;;
  Instance <- get_StyleInstance ;;
  ensure (IsUnique Instance) ;;
  set_StyleInstance None.

(** [FPythonToolsEditorStyle::ReloadTextures]. *)
Definition ReloadTextures (E : Engine) : Editor unit :=
  if SlateIsInitialized E then call ReloadTextureResources else ret tt.

(** [FPythonToolsEditorStyle::Get]. *)
Definition Get : Editor FSlateStyleSet :=
  Instance <- get_StyleInstance ;;
  deref Instance.

(** *** FPythonToolsEditorCommands *)

(** [FBindingContext], the base of [TCommands]: the name of the context, its
    description, its parent ([NAME_None] is [None]) and the name of the style
    set its icons come from. *)
Record FBindingContext : Type := {
  ContextName : string;
  ContextDesc : string;
  ContextParent : option string;
  ContextStyleSetName : string
}.

Inductive EUserInterfaceActionType : Type := Button.

(** [FUICommandInfo]; [FInputChord()] is the empty chord, [None].  The icon
    is [FSlateIcon(StyleSetName, StyleName)]. *)
Record FUICommandInfo : Type := {
  CommandName : string;
  Label : string;
  Description : string;
  UserInterfaceType : EUserInterfaceActionType;
  DefaultChord : option string;
  Icon : string * string
}.

(** The macro [UI_COMMAND(CommandId, FriendlyName, InDescription, CommandType,
    InDefaultChord)] inside a context: the command is named after its
    member, and its icon is the brush [<ContextName>.<CommandId>] of the
    context's style set. *)
Definition UI_COMMAND (This : FBindingContext)
    (CommandId FriendlyName InDescription : string)
    (CommandType : EUserInterfaceActionType) (InDefaultChord : option string)
    : FUICommandInfo :=
  {| CommandName := CommandId;
     Label := FriendlyName;
     Description := InDescription;
     UserInterfaceType := CommandType;
     DefaultChord := InDefaultChord;
     Icon := (ContextStyleSetName This, ContextName This ++ "." ++ CommandId) |}.

(** The constructor [FPythonToolsEditorCommands::FPythonToolsEditorCommands]. *)
Definition FPythonToolsEditorCommands : FBindingContext :=
  {| ContextName := "PythonToolsEditor";
     ContextDesc := "PythonTools Plugin";
     ContextParent := None;
     ContextStyleSetName := GetStyleSetName |}.

(** [FPythonToolsEditorCommands::RegisterCommands]: the value it gives the
    member [PluginAction]. *)
Definition RegisterCommands (This : FBindingContext) : FUICommandInfo :=
  UI_COMMAND This "PluginAction" "Python Tools" "Execute Python Tools action"
    Button None.

(** *** FPythonToolsEditorModule *)

(** [FPythonToolsEditorModule::RunPythonScript]. *)
Definition RunPythonScript (E : Engine) (PythonScript : string) : Editor bool :=
  if IsAvailable E then
    call (ExecPythonCommand PythonScript) ;;
    ret (ExecPythonCommandResult E PythonScript)
  else
    call (UE_LOG Warning
            "Failed to run Python script: Python Script Plugin is not available") ;;
    ret false.

(** The script of [PluginButtonClicked]; its two lines are separated by a
    line feed. *)
Definition SampleScript : string :=
  "import unreal"
  ++ String (Ascii.ascii_of_nat 10) "unreal.log('Python Tools plugin is working!')".

(** [FPythonToolsEditorModule::PluginButtonClicked]. *)
Definition PluginButtonClicked (E : Engine) : Editor unit :=
  RunPythonScript E SampleScript ;;
  ret tt.

(** The two directories [InitializePythonPaths] adds: the plugin's Python
    scripts directory and the project's. *)
Definition PluginPythonPath (E : Engine) : string :=
  ConvertRelativePathToFull E
    (Combine E [ProjectPluginsDir E; "PythonTools"; "Content"; "Python"]).

Definition ProjectPythonPath (E : Engine) : string :=
  ConvertRelativePathToFull E (Combine E [ProjectContentDir E; "Python"]).

(** [FPythonToolsEditorModule::InitializePythonPaths]. *)
Definition InitializePythonPaths (E : Engine) : Editor unit :=
  (* Make sure Python is enabled *)
  if IsAvailable E then
    call (AddPythonPath (PluginPythonPath E)) ;;
    call (AddPythonPath (ProjectPythonPath E)) ;;
    call (UE_LOG Log "Python paths initialized for PythonTools plugin")
  else
    call (UE_LOG Warning
            "Python Script Plugin is not available. Please enable it in Edit > Plugins > Scripting > Python Editor Script Plugin").

(** [PluginCommands->MapAction(Command, ExecuteAction, CanExecuteAction)];
    the command is [FPythonToolsEditorCommands::Get().PluginAction], read
    after [Register()]. *)
Definition MapAction (ExecuteAction : FExecuteAction) : Editor unit :=
  Pointer <- get_PluginCommands ;;
  List <- deref Pointer ;;
  set_PluginCommands (Some (List ++ [ExecuteAction])%list).

(** [FPythonToolsEditorModule::StartupModule]. *)
Definition StartupModule (E : Engine) : Editor unit :=
  Initialize E ;;
  ReloadTextures E ;;
  call RegisterCommandContext ;;
  set_PluginCommands (Some []) ;;
  MapAction CallPluginButtonClicked ;;
  call RegisterStartupCallback ;;
  (* Initialize Python paths *)
  InitializePythonPaths E.

(** [FPythonToolsEditorModule::ShutdownModule]. *)
Definition ShutdownModule : Editor unit :=
  call UnRegisterStartupCallback ;;
  call UnregisterOwner ;;
  Shutdown ;;
  call UnregisterCommandContext.

(** *** What the editor holds for the module *)

(** The registrations a list of calls leaves standing: the style sets, command
    contexts and startup callbacks registered and not unregistered, and the
    directories added to the Python path. *)
Record Registry : Type := {
  SlateStyles : Z;
  CommandContexts : Z;
  StartupCallbacks : Z;
  PythonPaths : list string
}.

Definition register (R : Registry) (e : Effect) : Registry :=
  match e with
  | RegisterSlateStyle _ =>
      {| SlateStyles := SlateStyles R + 1; CommandContexts := CommandContexts R;
         StartupCallbacks := StartupCallbacks R; PythonPaths := PythonPaths R |}
  | UnRegisterSlateStyle _ =>
      {| SlateStyles := SlateStyles R - 1; CommandContexts := CommandContexts R;
         StartupCallbacks := StartupCallbacks R; PythonPaths := PythonPaths R |}
  | RegisterCommandContext =>
      {| SlateStyles := SlateStyles R; CommandContexts := CommandContexts R + 1;
         StartupCallbacks := StartupCallbacks R; PythonPaths := PythonPaths R |}
  | UnregisterCommandContext =>
      {| SlateStyles := SlateStyles R; CommandContexts := CommandContexts R - 1;
         StartupCallbacks := StartupCallbacks R; PythonPaths := PythonPaths R |}
  | RegisterStartupCallback =>
      {| SlateStyles := SlateStyles R; CommandContexts := CommandContexts R;
         StartupCallbacks := StartupCallbacks R + 1; PythonPaths := PythonPaths R |}
  | UnRegisterStartupCallback =>
      {| SlateStyles := SlateStyles R; CommandContexts := CommandContexts R;
         StartupCallbacks := StartupCallbacks R - 1; PythonPaths := PythonPaths R |}
  | AddPythonPath Path =>
      {| SlateStyles := SlateStyles R; CommandContexts := CommandContexts R;
         StartupCallbacks := StartupCallbacks R; PythonPaths := (PythonPaths R ++ [Path])%list |}
  | _ => R
  end.

Definition registry (calls : list Effect) : Registry :=
  fold_left register calls
    {| SlateStyles := 0; CommandContexts := 0; StartupCallbacks := 0;
       PythonPaths := [] |}.

(** The scripts a list of calls has run, oldest first. *)
Fixpoint executed (calls : list Effect) : list string :=
  match calls with
  | [] => []
  | ExecPythonCommand Script :: rest => Script :: executed rest
  | _ :: rest => executed rest
  end.

(** *** An editor session *)

(** An editor in which the plugin is installed, with or without the Python
    plugin, and the state of the module before it starts. *)
Definition SampleEngine (Available : bool) : Engine :=
  {| IsAvailable := Available;
     ExecPythonCommandResult := fun _ => true;
     SlateIsInitialized := true;
     FindPlugin := fun Name =>
       if String.eqb Name "PythonTools" then Some "Plugins/PythonTools" else None;
     ProjectPluginsDir := "Plugins";
     ProjectContentDir := "Content";
     Combine := String.concat "/";
     ConvertRelativePathToFull := fun Path => "/Project/" ++ Path;
     PathAppend := fun Lhs Rhs => Lhs ++ "/" ++ Rhs |}.

Definition Unloaded : State :=
  {| StyleInstance := None; PluginCommands := None; Effects := [] |}.

End PythonTools.

(** * Properties *)

(** ** The constants *)

Section Constants.

(** The constants of exact arithmetic are the values of those of binary32. *)
Lemma exact_constants :
  Exact.of_binary32 B32.zero = f_zero
  /\ Exact.of_binary32 B32.half = f_half
  /\ Exact.of_binary32 B32.one = f_one
  /\ Exact.of_binary32 B32.small_number = SMALL_NUMBER
  /\ Exact.of_binary32 B32.max_flt = MAX_FLT.
Proof.
  repeat split; cbn; try reflexivity.
  - change (Z.pow_pos 2 24) with 16777216%Z. lra.
  - change (Z.pow_pos 2 23) with 8388608%Z. lra.
Qed.

(** [1.e-8f] is the binary32 quotient of 1 by 10^8, both exact in binary32,
    hence the binary32 number nearest to 10^-8. *)
Lemma b32_small_number_literal :
  B32.small_number = (B32.of_Z 1 / B32.of_Z 100000000)%flt.
Proof. vm_compute. reflexivity. Qed.

Lemma digits2_pos_bound (m : positive) : (Zpos m < 2 ^ Zpos (digits2_pos m))%Z.
Proof.
  induction m as [m IH | m IH |]; cbn [digits2_pos].
  - rewrite Pos2Z.inj_succ, Z.pow_succ_r by lia. lia.
  - rewrite Pos2Z.inj_succ, Z.pow_succ_r by lia. lia.
  - reflexivity.
Qed.

(** [MAX_FLT] is the largest finite binary32 number. *)
Lemma b32_max_flt_largest (x : spec_float) :
  valid_binary B32.prec B32.emax x = true ->
  B32.is_finite x = true ->
  SFleb x B32.max_flt = true
  /\ B32.max_flt = SFmax_float B32.prec B32.emax
  /\ valid_binary B32.prec B32.emax B32.max_flt = true.
Proof.
  intros Hv Hf. split; [| split; reflexivity].
  destruct x as [[] | [] | | s m e]; try discriminate; try reflexivity.
  unfold valid_binary, bounded, canonical_mantissa, fexp, emin in Hv.
  apply andb_prop in Hv as [Hc He].
  apply Z.eqb_eq in Hc. apply Z.leb_le in He.
  unfold B32.prec, B32.emax in *.
  unfold SFleb, SFcompare, B32.max_flt. destruct s; [reflexivity |].
  destruct (Z.compare_spec e 104) as [-> | Hlt | Hgt]; [| reflexivity | lia].
  change (Pos.compare_cont Eq m 16777215) with (Pos.compare m 16777215).
  destruct (Pos.compare_spec m 16777215) as [Heq | Hlt | Hgt]; try reflexivity.
  exfalso. pose proof (digits2_pos_bound m) as Hb.
  assert (Hd : Zpos (digits2_pos m) = 24%Z) by lia.
  rewrite Hd in Hb. change (2 ^ 24)%Z with 16777216%Z in Hb. lia.
Qed.

End Constants.

(** ** Operations that cannot yield NaN *)

Section NoNaN.

Unset Implicit Arguments.

Variables prec emax : Z.

Lemma iter_pos_invariant {A : Type} (P : A -> Prop) (f : A -> A) :
  (forall x, P x -> P (f x)) -> forall n x, P x -> P (iter_pos f n x).
Proof.
  intros Hf. induction n as [n IH | n IH |]; intros x Hx; cbn.
  - apply IH, IH, Hf, Hx.
  - apply IH, IH, Hx.
  - apply Hf, Hx.
Qed.

Lemma shr_1_nonneg mrs : (0 <= shr_m mrs)%Z -> (0 <= shr_m (shr_1 mrs))%Z.
Proof.
  destruct mrs as [m r s]. cbn. destruct m as [| [p | p |] | p]; cbn; lia.
Qed.

Lemma shr_nonneg mrs e n : (0 <= shr_m mrs)%Z -> (0 <= shr_m (fst (shr mrs e n)))%Z.
Proof.
  intros H. unfold shr. destruct n; cbn; try exact H.
  apply iter_pos_invariant; [apply shr_1_nonneg | exact H].
Qed.

Lemma shr_fexp_nonneg m e l :
  (0 <= m)%Z -> (0 <= shr_m (fst (shr_fexp prec emax m e l)))%Z.
Proof.
  intros H. unfold shr_fexp. apply shr_nonneg.
  destruct l as [| []]; exact H.
Qed.

Lemma round_nearest_even_nonneg m l : (0 <= m)%Z -> (0 <= round_nearest_even m l)%Z.
Proof.
  intros H. unfold round_nearest_even. destruct l as [| []]; try lia.
  destruct (Z.even m); lia.
Qed.

Lemma binary_round_aux_signed sx mx ex lx :
  (0 <= mx)%Z -> B32.signed sx (binary_round_aux prec emax sx mx ex lx).
Proof.
  intros H. unfold binary_round_aux.
  pose proof (shr_fexp_nonneg mx ex lx H) as H1.
  destruct (shr_fexp prec emax mx ex lx) as [mrs' e'] eqn:E1. cbn [fst] in H1.
  pose proof (shr_fexp_nonneg _ e' loc_Exact
                (round_nearest_even_nonneg _ (loc_of_shr_record mrs') H1)) as H2.
  destruct (shr_fexp prec emax (round_nearest_even (shr_m mrs') (loc_of_shr_record mrs')) e' loc_Exact)
    as [mrs'' e''] eqn:E2. cbn [fst] in H2.
  destruct (shr_m mrs'') as [| m | m].
  - now left.
  - destruct (Z.leb e'' (emax - prec)); right; [right; eauto | now left].
  - lia.
Qed.

Lemma signed_not_nan s x : B32.signed s x -> B32.is_nan x = false.
Proof. intros [-> | [-> | (m & e & ->)]]; reflexivity. Qed.

Lemma signed_false_nonneg x : B32.signed false x -> B32.is_nonneg x = true.
Proof. intros [-> | [-> | (m & e & ->)]]; reflexivity. Qed.

Lemma binary_round_signed s m e : B32.signed s (binary_round prec emax s m e).
Proof.
  unfold binary_round.
  destruct (shl_align m e (fexp prec emax (Z.pos (digits2_pos m) + e))) as [mz ez].
  apply binary_round_aux_signed. lia.
Qed.

Lemma binary_normalize_not_nan m e sz :
  B32.is_nan (binary_normalize prec emax m e sz) = false.
Proof.
  destruct m as [| m | m]; cbn [binary_normalize]; [reflexivity | |];
    eapply signed_not_nan, binary_round_signed.
Qed.

Lemma SFmul_square_nonneg x :
  B32.is_nan x = false -> B32.is_nonneg (SFmul prec emax x x) = true.
Proof.
  destruct x as [s | s | | s m e]; try discriminate; intros _.
  - reflexivity.
  - destruct s; reflexivity.
  - unfold SFmul. rewrite xorb_nilpotent.
    apply signed_false_nonneg, binary_round_aux_signed. lia.
Qed.

Lemma SFadd_nonneg x y :
  B32.is_nonneg x = true -> B32.is_nonneg y = true ->
  B32.is_nonneg (SFadd prec emax x y) = true.
Proof.
  destruct x as [[] | [] | | [] mx ex], y as [[] | [] | | [] my ey];
    try discriminate; intros _ _; try reflexivity.
  unfold SFadd. cbn [cond_Zopp].
  match goal with
  | |- context [Z.add (Zpos ?a) (Zpos ?b)] =>
      change (Z.add (Zpos a) (Zpos b)) with (Zpos (a + b))
  end.
  cbn [binary_normalize]. apply signed_false_nonneg, binary_round_signed.
Qed.

Lemma SFsub_finite_not_nan x y :
  B32.is_finite x = true -> B32.is_finite y = true ->
  B32.is_nan (SFsub prec emax x y) = false.
Proof.
  destruct x as [[] | [] | | sx mx ex], y as [[] | [] | | sy my ey];
    try discriminate; intros _ _; try reflexivity.
  unfold SFsub. apply binary_normalize_not_nan.
Qed.

Lemma sqrtrem_fst_nonneg n : (0 <= fst (Z.sqrtrem n))%Z.
Proof.
  destruct n as [| p | p]; cbn; try lia.
  destruct (Pos.sqrtrem p) as [s [| r |]]; cbn; lia.
Qed.

Lemma SFsqrt_nonneg_not_nan x :
  B32.is_nonneg x = true -> B32.is_nan (SFsqrt prec emax x) = false.
Proof.
  destruct x as [[] | [] | | [] m e]; try discriminate; intros _; try reflexivity.
  unfold SFsqrt, SFsqrt_core_binary.
  match goal with
  | |- context [Z.sqrtrem ?n] =>
      pose proof (sqrtrem_fst_nonneg n) as Hq; destruct (Z.sqrtrem n) as [q r]
  end.
  cbn [fst] in Hq. eapply signed_not_nan, binary_round_aux_signed. exact Hq.
Qed.

Lemma SFsqrt_nonneg x :
  B32.is_nonneg x = true -> B32.is_nonneg (SFsqrt prec emax x) = true.
Proof.
  destruct x as [[] | [] | | [] m e]; try discriminate; intros _; try reflexivity.
  unfold SFsqrt, SFsqrt_core_binary.
  match goal with
  | |- context [Z.sqrtrem ?n] =>
      pose proof (sqrtrem_fst_nonneg n) as Hq; destruct (Z.sqrtrem n) as [q r]
  end.
  cbn [fst] in Hq. apply signed_false_nonneg, binary_round_aux_signed. exact Hq.
Qed.

Lemma nonneg_not_nan x : B32.is_nonneg x = true -> B32.is_nan x = false.
Proof. destruct x as [[] | [] | | [] m e]; try discriminate; reflexivity. Qed.

(** For numbers, [b < a] is false exactly when [a <= b]. *)
Lemma SFltb_false_SFleb a b :
  B32.is_nan a = false -> B32.is_nan b = false ->
  SFltb b a = false -> SFleb a b = true.
Proof.
  unfold SFltb, SFleb, SFcompare.
  destruct a as [[] | [] | | [] ma ea], b as [[] | [] | | [] mb eb];
    try discriminate; intros _ _; try reflexivity; try discriminate;
    change (Pos.compare_cont Eq) with Pos.compare;
    rewrite (Z.compare_antisym ea eb), (Pos.compare_antisym ma mb);
    destruct (Z.compare ea eb), (Pos.compare ma mb); cbn;
    try reflexivity; try discriminate.
Qed.
End NoNaN.

Set Implicit Arguments.

(** A number that is not negative stays so when it is converted to
    [float]. *)
Lemma of_real_nonneg (x : spec_float) :
  B32.is_nonneg x = true -> B32.is_nonneg (B32.of_real x) = true.
Proof.
  destruct x as [[] | [] | | [] m e]; try discriminate; intros _; try reflexivity.
  apply signed_false_nonneg, binary_round_signed.
Qed.

(** The distance between two points with finite coordinates is a number that
    is not negative: the differences are numbers, their squares and the sum
    of the squares are non-negative or [+infinity], and so are the square
    root and its conversion to [float]. *)
Lemma ieee_Distance_nonneg (V1 V2 : FVector spec_float) :
  finite_vector V1 = true -> finite_vector V2 = true ->
  B32.is_nonneg (to_float (Distance V1 V2)) = true.
Proof.
  unfold finite_vector. intros H1 H2.
  apply andb_prop in H1 as [H1 H1z]. apply andb_prop in H1 as [H1x H1y].
  apply andb_prop in H2 as [H2 H2z]. apply andb_prop in H2 as [H2x H2y].
  unfold Distance. cbn [radd rsub rmul rsqrt to_float ieee].
  apply of_real_nonneg, SFsqrt_nonneg.
  repeat apply SFadd_nonneg; apply SFmul_square_nonneg;
    apply SFsub_finite_not_nan; assumption.
Qed.

(** ** CalculateJumpVelocity in any arithmetic *)

Section JumpVelocityAnyArithmetic.

Context {float : Type} {FO : FloatOps float}.
Local Open Scope flt_scope.
Local Abbreviation X := FVec.X.
Local Abbreviation Y := FVec.Y.
Local Abbreviation Z := FVec.Z.

Lemma CalculateJumpVelocity_X (S T : FVector float) (g JumpTime : float) :
  X (CalculateJumpVelocity S T g JumpTime)
  = (X (Normalize (HorizontalDirection S T))
     * to_real (to_float (Size (HorizontalDirection S T)) / JumpTime)%flt)%re.
Proof. reflexivity. Qed.

Lemma CalculateJumpVelocity_Y (S T : FVector float) (g JumpTime : float) :
  Y (CalculateJumpVelocity S T g JumpTime)
  = (Y (Normalize (HorizontalDirection S T))
     * to_real (to_float (Size (HorizontalDirection S T)) / JumpTime)%flt)%re.
Proof. reflexivity. Qed.

Lemma CalculateJumpVelocity_Z (S T : FVector float) (g JumpTime : float) :
  Z (CalculateJumpVelocity S T g JumpTime)
  = to_real ((to_float (Z T - Z S)%re - f_half * g * JumpTime * JumpTime)
             / JumpTime)%flt.
Proof. reflexivity. Qed.

(** The function that notes its divisions returns what
    [CalculateJumpVelocity] returns. *)
Lemma Normalize_dividing_result (V : FVector float) :
  fst (Normalize_dividing V) = Normalize V.
Proof.
  unfold Normalize_dividing, Normalize.
  destruct (rltb (to_real SMALL_NUMBER) (SizeSquared V)); reflexivity.
Qed.

Lemma CalculateJumpVelocity_dividing_result (S T : FVector float) (g JumpTime : float) :
  fst (CalculateJumpVelocity_dividing S T g JumpTime)
  = CalculateJumpVelocity S T g JumpTime.
Proof.
  unfold CalculateJumpVelocity_dividing, CalculateJumpVelocity.
  cbv zeta. rewrite <- Normalize_dividing_result.
  destruct (Normalize_dividing _) as [Direction divisors]. reflexivity.
Qed.

(** C9.  Two calls with the same jump time that agree on the X and Y
    coordinates of start and target return the same X and Y, whatever their
    gravities and Z coordinates; two calls that agree on the Z coordinates
    and on the gravity return the same Z, whatever their X and Y
    coordinates.  This holds in every arithmetic, for every jump time. *)
Theorem CalculateJumpVelocity_noninterference :
  forall (S1 T1 S2 T2 : FVector float) (g1 g2 JumpTime : float),
    (X S1 = X S2 -> Y S1 = Y S2 -> X T1 = X T2 -> Y T1 = Y T2 ->
     X (CalculateJumpVelocity S1 T1 g1 JumpTime)
       = X (CalculateJumpVelocity S2 T2 g2 JumpTime)
     /\ Y (CalculateJumpVelocity S1 T1 g1 JumpTime)
        = Y (CalculateJumpVelocity S2 T2 g2 JumpTime))
    /\ (Z S1 = Z S2 -> Z T1 = Z T2 -> g1 = g2 ->
        Z (CalculateJumpVelocity S1 T1 g1 JumpTime)
          = Z (CalculateJumpVelocity S2 T2 g2 JumpTime)).
Proof.
  intros S1 T1 S2 T2 g1 g2 JumpTime. split.
  - intros HSx HSy HTx HTy.
    rewrite !CalculateJumpVelocity_X, !CalculateJumpVelocity_Y.
    assert (HD : HorizontalDirection S1 T1 = HorizontalDirection S2 T2).
    { unfold HorizontalDirection. now rewrite HSx, HSy, HTx, HTy. }
    rewrite HD. split; reflexivity.
  - intros HSz HTz Hg.
    rewrite !CalculateJumpVelocity_Z. now rewrite HSz, HTz, Hg.
Qed.

End JumpVelocityAnyArithmetic.

(** Two calls of the compiled code that differ in gravity and in the Z
    coordinates only return the same X and Y. *)
Lemma CalculateJumpVelocity_noninterference_witness :
  FVec.X (CalculateJumpVelocity
            (mkFVector (B64.of_Z 0) (B64.of_Z 0) (B64.of_Z 0))
            (mkFVector (B64.of_Z 100) (B64.of_Z 0) (B64.of_Z 100))
            (B32.of_Z (-1000)) (B32.of_Z 1))
  = FVec.X (CalculateJumpVelocity
              (mkFVector (B64.of_Z 0) (B64.of_Z 0) (B64.of_Z 7))
              (mkFVector (B64.of_Z 100) (B64.of_Z 0) (B64.of_Z (-3)))
              (B32.of_Z (-980)) (B32.of_Z 1)).
Proof.
  refine (proj1 (proj1 (@CalculateJumpVelocity_noninterference _ ieee
            (mkFVector (B64.of_Z 0) (B64.of_Z 0) (B64.of_Z 0))
            (mkFVector (B64.of_Z 100) (B64.of_Z 0) (B64.of_Z 100))
            (mkFVector (B64.of_Z 0) (B64.of_Z 0) (B64.of_Z 7))
            (mkFVector (B64.of_Z 100) (B64.of_Z 0) (B64.of_Z (-3)))
            (B32.of_Z (-1000)) (B32.of_Z (-980)) (B32.of_Z 1)) _ _ _ _));
    reflexivity.
Defined.

(** ** CalculateJumpVelocity in exact arithmetic *)

Section JumpVelocityExact.

Local Open Scope R_scope.
Local Abbreviation X := FVec.X.
Local Abbreviation Y := FVec.Y.
Local Abbreviation Z := FVec.Z.

Lemma exact_ltb_true (a b : R) : a < b -> Exact.ltb a b = true.
Proof. intros H. unfold Exact.ltb. destruct (Rlt_dec a b); [reflexivity | contradiction]. Qed.

Lemma exact_ltb_false (a b : R) : b <= a -> Exact.ltb a b = false.
Proof. intros H. unfold Exact.ltb. destruct (Rlt_dec a b); [lra | reflexivity]. Qed.

Lemma small_number_pos : 0 < Exact.small_number.
Proof. unfold Exact.small_number. lra. Qed.

(** X2.  Whatever the tolerance does to the horizontal part, in exact
    arithmetic the vertical part of the ballistic equation holds for every
    start, target and gravity and every jump time other than zero. *)
Theorem CalculateJumpVelocity_vertical :
  forall (StartPos TargetPos : FVector R) (GravityZ JumpTime : R),
    JumpTime <> 0 ->
    Z (BallisticPosition StartPos
         (CalculateJumpVelocity StartPos TargetPos GravityZ JumpTime)
         GravityZ JumpTime)
    = Z TargetPos.
Proof.
  intros S T g JT HT. unfold BallisticPosition. cbn [FVec.Z].
  rewrite CalculateJumpVelocity_Z. cbn. field. exact HT.
Qed.

Lemma CalculateJumpVelocity_vertical_witness :
  Z (BallisticPosition (mkFVector 0 0 0)
       (CalculateJumpVelocity (mkFVector 0 0 0) (mkFVector (1 / 16384) 0 7) (-980) 13)
       (-980) 13)
  = 7.
Proof.
  refine (@CalculateJumpVelocity_vertical
            (mkFVector 0 0 0) (mkFVector (1 / 16384) 0 7) (-980) 13 _).
  lra.
Defined.

End JumpVelocityExact.

(** ** CalculateJumpVelocity in the compiled arithmetic *)

Section JumpVelocityIEEE.

Local Abbreviation X := FVec.X.
Local Abbreviation Y := FVec.Y.
Local Abbreviation Z := FVec.Z.

(** A finite number minus a number equal to it is a zero. *)
Lemma b64_sub_eq (x y : spec_float) :
  SFeqb y x = true -> B32.is_finite x = true -> B32.is_zero (y - x)%re = true.
Proof.
  unfold SFeqb, SFcompare.
  destruct x as [[] | [] | | [] mx ex], y as [[] | [] | | [] my ey];
    try discriminate; try reflexivity;
    change (Pos.compare_cont Eq) with Pos.compare;
    intros Heq _;
    destruct (Z.compare_spec ey ex), (Pos.compare_spec my mx);
    try discriminate; subst;
    match goal with
    | |- B32.is_zero (?a - ?b)%re = true =>
        change (B32.is_zero (SFsub B64.prec B64.emax a b) = true)
    end;
    unfold SFsub; rewrite Z.sub_diag; reflexivity.
Qed.

(** [+0] divided by a positive number, finite or not, is [+0]. *)
Lemma b32_zero_div_pos (t : spec_float) :
  (f_zero <? t)%flt = true -> (B32.zero / t)%flt = B32.zero.
Proof.
  destruct t as [[] | [] | | [] m e]; try discriminate; intros _; reflexivity.
Qed.

Lemma b32_pos_not_zero (t : spec_float) :
  (f_zero <? t)%flt = true -> B32.is_zero t = false.
Proof.
  destruct t as [[] | [] | | [] m e]; try discriminate; intros _; reflexivity.
Qed.

(** A direction of zeros, whatever their signs, has size [+0], is left alone
    by [Normalize], which does not divide, and stays a direction of zeros
    when scaled by [+0]. *)
Lemma ieee_zero_direction (dx dy : spec_float) :
  B32.is_zero dx = true -> B32.is_zero dy = true ->
  let D := mkFVector dx dy (to_real f_zero) in
  to_float (Size D) = B32.zero
  /\ Normalize_dividing D = (D, [])
  /\ B32.is_zero (dx * to_real B32.zero)%re = true
  /\ B32.is_zero (dy * to_real B32.zero)%re = true.
Proof.
  destruct dx as [[] | | |], dy as [[] | | |]; try discriminate;
    intros _ _; repeat split; reflexivity.
Qed.

(** C5.  In the compiled arithmetic, for every gravity and every jump time
    [T > 0], when start and target have equal finite X and equal finite Y the
    X and Y of the result are exactly zero: the tolerance test of [Normalize]
    keeps [InvSqrt] away from the zero-length direction, so the call performs
    two divisions only, both by [JumpTime], which is not zero, and no NaN or
    infinity arises. *)
Theorem CalculateJumpVelocity_zero_horizontal :
  forall (StartPos TargetPos : FVector spec_float) (GravityZ JumpTime : spec_float),
    SFeqb (X TargetPos) (X StartPos) = true ->
    SFeqb (Y TargetPos) (Y StartPos) = true ->
    B32.is_finite (X StartPos) = true ->
    B32.is_finite (Y StartPos) = true ->
    (f_zero <? JumpTime)%flt = true ->
    let v0 := CalculateJumpVelocity StartPos TargetPos GravityZ JumpTime in
    let run := CalculateJumpVelocity_dividing StartPos TargetPos GravityZ JumpTime in
    B32.is_zero (X v0) = true
    /\ B32.is_zero (Y v0) = true
    /\ fst run = v0
    /\ snd run = [JumpTime; JumpTime]
    /\ Forall (fun d => B32.is_zero d = false) (snd run).
Proof.
  intros S T g JT HX HY HfX HfY HJT v0 run.
  pose proof (b64_sub_eq _ _ HX HfX) as Hdx.
  pose proof (b64_sub_eq _ _ HY HfY) as Hdy.
  destruct (ieee_zero_direction _ _ Hdx Hdy) as (Hsize & Hnorm & Hzx & Hzy).
  assert (Hrun : run = (v0, [JT; JT])).
  { subst run. rewrite (surjective_pairing (CalculateJumpVelocity_dividing S T g JT)).
    rewrite CalculateJumpVelocity_dividing_result. fold v0. f_equal.
    unfold CalculateJumpVelocity_dividing. cbv zeta.
    change (mkFVector (X (vsub T S)) (Y (vsub T S)) (to_real f_zero))
      with (mkFVector (X T - X S)%re (Y T - Y S)%re (to_real f_zero)).
    rewrite Hnorm. reflexivity. }
  rewrite Hrun. cbn [fst snd]. subst v0.
  rewrite CalculateJumpVelocity_X, CalculateJumpVelocity_Y.
  unfold HorizontalDirection.
  rewrite <- (Normalize_dividing_result
                (mkFVector (X T - X S)%re (Y T - Y S)%re (to_real f_zero))).
  rewrite Hnorm, Hsize, (b32_zero_div_pos _ HJT). cbn [fst FVec.X FVec.Y].
  repeat split; try assumption.
  pose proof (b32_pos_not_zero _ HJT) as Hnz.
  repeat constructor; exact Hnz.
Qed.

Lemma CalculateJumpVelocity_zero_horizontal_witness :
  let StartPos := mkFVector (B64.of_Z 300) (B64.of_Z (-150)) (B64.of_Z 0) in
  let TargetPos := mkFVector (B64.of_Z 300) (B64.of_Z (-150)) (B64.of_Z 200) in
  let v0 := CalculateJumpVelocity StartPos TargetPos (B32.of_Z (-980)) (B32.of_Z 2) in
  let run := CalculateJumpVelocity_dividing StartPos TargetPos
               (B32.of_Z (-980)) (B32.of_Z 2) in
  B32.is_zero (X v0) = true
  /\ B32.is_zero (Y v0) = true
  /\ fst run = v0
  /\ snd run = [B32.of_Z 2; B32.of_Z 2]
  /\ Forall (fun d => B32.is_zero d = false) (snd run).
Proof.
  refine (@CalculateJumpVelocity_zero_horizontal
            (mkFVector (B64.of_Z 300) (B64.of_Z (-150)) (B64.of_Z 0))
            (mkFVector (B64.of_Z 300) (B64.of_Z (-150)) (B64.of_Z 200))
            (B32.of_Z (-980)) (B32.of_Z 2) _ _ _ _ _); reflexivity.
Defined.

(** Scenarios S3 and S4 of the specification, in the compiled arithmetic. *)
Example CalculateJumpVelocity_S3 :
  CalculateJumpVelocity
    (mkFVector (B64.of_Z 0) (B64.of_Z 0) (B64.of_Z 0))
    (mkFVector (B64.of_Z 100) (B64.of_Z 0) (B64.of_Z 100))
    (B32.of_Z (-1000)) (B32.of_Z 1)
  = mkFVector (B64.of_Z 100) (B64.of_Z 0) (B64.of_Z 600).
Proof. vm_compute. reflexivity. Qed.

Example CalculateJumpVelocity_S4 :
  CalculateJumpVelocity
    (mkFVector (B64.of_Z 0) (B64.of_Z 0) (B64.of_Z 0))
    (mkFVector (B64.of_Z 0) (B64.of_Z 0) (B64.of_Z 0))
    (B32.of_Z (-980)) (B32.of_Z 2)
  = mkFVector (B64.of_Z 0) (B64.of_Z 0) (B64.of_Z 980).
Proof. vm_compute. reflexivity. Qed.

(** An ordinary jump, 100 units across and 305 down in one second: the
    direction is normalised in [double] and scaled back by the distance. *)
Example CalculateJumpVelocity_across :
  CalculateJumpVelocity
    (mkFVector (B64.of_Z 0) (B64.of_Z 0) (B64.of_Z 0))
    (mkFVector (B64.of_Z (-60)) (B64.of_Z (-80)) (B64.of_Z (-305)))
    (B32.of_Z (-980)) (B32.of_Z 1)
  = mkFVector (B64.of_Z (-60)) (B64.of_Z (-80)) (B64.of_Z 185).
Proof. vm_compute. reflexivity. Qed.

(** *** A target closer than the tolerance of [Normalize]

    The function computes the horizontal velocity as the normalised direction
    times [XYDistance / JumpTime], and does not read what [Normalize]
    returns.  When the squared length of the direction is not above
    [SMALL_NUMBER] the direction is left as it was, and the velocity is the
    offset times its length over the time. *)



End JumpVelocityIEEE.


(** ** FindClosestActor in any arithmetic *)

Section ClosestActorAnyArithmetic.

Context {float : Type} {FO : FloatOps float}.
Local Open Scope flt_scope.

Variable AActor : Type.
Variable ActorLocation : AActor -> FVector float.
Variable SourceLocation : FVector float.

Local Abbreviation dist := (DistanceTo ActorLocation SourceLocation).
Local Abbreviation Ptr := (AActorPtr AActor).
Local Abbreviation Out := (Outputs float AActor).
Local Abbreviation step := (step ActorLocation SourceLocation).
Local Abbreviation initial := (@initial float FO AActor).

Lemma visit_step (Actor : Ptr) (out : Out) (queries : list AActor) :
  visit ActorLocation SourceLocation Actor out queries
  = Some (step out Actor, queries ++ live [Actor]).
Proof.
  destruct Actor as [a |]; cbn.
  - unfold bind, GetActorLocation. fold (dist a).
    destruct (dist a <? OutClosestDistance out); reflexivity.
  - unfold ret. now rewrite app_nil_r.
Qed.

Lemma live_app (l1 l2 : list Ptr) : live (l1 ++ l2) = live l1 ++ live l2.
Proof.
  induction l1 as [| [a |] l1 IH]; cbn; [reflexivity | now rewrite IH | exact IH].
Qed.

(** The loop never calls through a null pointer: it runs to its end, folds
    [step] over the array, and queries the non-null entries in order. *)
Lemma for_each_visit (ActorArray : list Ptr) :
  forall (out : Out) (queries : list AActor),
    for_each (visit ActorLocation SourceLocation) ActorArray out queries
    = Some (fold_left step ActorArray out, queries ++ live ActorArray).
Proof.
  induction ActorArray as [| Actor rest IH]; intros out queries.
  - cbn. unfold ret. now rewrite app_nil_r.
  - cbn [for_each fold_left]. unfold bind at 1. rewrite visit_step.
    rewrite IH. change (Actor :: rest) with ([Actor] ++ rest).
    now rewrite live_app, app_assoc.
Qed.

Lemma FindClosestActor_fold (ActorArray : list Ptr) (queries : list AActor) :
  FindClosestActor ActorLocation SourceLocation ActorArray queries
  = Some ((negb (is_null (OutClosestActor (fold_left step ActorArray initial))),
           fold_left step ActorArray initial),
          queries ++ live ActorArray).
Proof.
  unfold FindClosestActor. fold initial.
  destruct ActorArray as [| Actor rest].
  - cbn. unfold ret. now rewrite app_nil_r.
  - cbn [length Nat.eqb]. unfold bind. rewrite for_each_visit. reflexivity.
Qed.

(** C10.  For every source location and every array, [FindClosestActor]
    returns: no position is queried through a null pointer, and the queries
    it makes, starting from none, are the non-null entries of the array, one
    query per entry, in array order. *)
Theorem FindClosestActor_queries_live_entries :
  forall ActorArray : list Ptr,
    exists result : bool * Out,
      FindClosestActor ActorLocation SourceLocation ActorArray [] = Some (result, live ActorArray).
Proof.
  intros ActorArray. rewrite FindClosestActor_fold. eexists. reflexivity.
Qed.

(** A query through a null pointer would have no behaviour: the null test of
    the loop is what C10 rests on. *)
Lemma GetActorLocation_nullptr (queries : list AActor) :
  GetActorLocation ActorLocation nullptr queries = None.
Proof. reflexivity. Qed.

Lemma fold_step_all_null (ActorArray : list Ptr) (out : Out) :
  (forall p, In p ActorArray -> p = nullptr) ->
  fold_left step ActorArray out = out /\ live ActorArray = [].
Proof.
  revert out. induction ActorArray as [| p rest IH]; intros out Hnull.
  - split; reflexivity.
  - assert (Hp : p = nullptr) by (apply Hnull; now left). subst p.
    cbn. apply IH. intros q Hq. apply Hnull. now right.
Qed.

(** C4.  When every entry of the array is null, which includes the empty
    array, [FindClosestActor] returns [false], with [OutClosestActor] null
    and [OutClosestDistance] equal to [MAX_FLT], and queries no position:
    the outcome is that of the empty array. *)
Theorem FindClosestActor_all_null :
  forall (ActorArray : list Ptr) (queries : list AActor),
    (forall p, In p ActorArray -> p = nullptr) ->
    FindClosestActor ActorLocation SourceLocation ActorArray queries
      = Some ((false, mkOutputs nullptr MAX_FLT), queries)
    /\ FindClosestActor ActorLocation SourceLocation ActorArray queries
       = FindClosestActor ActorLocation SourceLocation [] queries.
Proof.
  intros ActorArray queries Hnull.
  destruct (@fold_step_all_null ActorArray initial Hnull) as [Hfold Hlive].
  rewrite !FindClosestActor_fold, Hfold, Hlive. cbn. rewrite app_nil_r.
  split; reflexivity.
Qed.

(** The running best is the initial one or an entry of the array with its
    distance. *)
Lemma fold_step_cases (ActorArray : list Ptr) :
  forall out : Out,
    fold_left step ActorArray out = out
    \/ exists a, In (Some a) ActorArray
                 /\ fold_left step ActorArray out = mkOutputs (Some a) (dist a).
Proof.
  induction ActorArray as [| p rest IH]; intros out.
  - now left.
  - cbn [fold_left]. destruct (IH (step out p)) as [Heq | (a & Hin & Heq)].
    + rewrite Heq. destruct p as [b |]; cbn.
      * destruct (dist b <? OutClosestDistance out).
        -- right. exists b. split; [now left | reflexivity].
        -- now left.
      * now left.
    + right. exists a. split; [now right | exact Heq].
Qed.

(** Entries that are not closer than the running best leave it as it is. *)
Lemma fold_step_no_improvement (ActorArray : list Ptr) (out : Out) :
  (forall b, In (Some b) ActorArray -> (dist b <? OutClosestDistance out) = false) ->
  fold_left step ActorArray out = out.
Proof.
  revert out. induction ActorArray as [| p rest IH]; intros out Hno.
  - reflexivity.
  - cbn [fold_left]. assert (Hstep : step out p = out).
    { destruct p as [b |]; cbn; [| reflexivity].
      rewrite (Hno b) by now left. reflexivity. }
    rewrite Hstep. apply IH. intros b Hb. apply Hno. now right.
Qed.

(** X1.  When no non-null entry is closer to the source than [MAX_FLT],
    [FindClosestActor] returns [false] with a null actor and [MAX_FLT],
    after one query per non-null entry: with C2, the function returns [true]
    exactly when some non-null entry is closer than [MAX_FLT]. *)
Theorem FindClosestActor_none_within_MAX_FLT :
  forall ActorArray : list Ptr,
    (forall b, In (Some b) ActorArray -> (dist b <? MAX_FLT) = false) ->
    FindClosestActor ActorLocation SourceLocation ActorArray []
      = Some ((false, mkOutputs nullptr MAX_FLT), live ActorArray).
Proof.
  intros ActorArray Hfar. rewrite FindClosestActor_fold.
  rewrite (@fold_step_no_improvement ActorArray initial Hfar). reflexivity.
Qed.


Context {FOrd : FloatOrder FO}.

(** Whatever is less than the final best was less than the initial one. *)
Lemma fold_step_decreases (ActorArray : list Ptr) :
  forall (out : Out) (x : float),
    (x <? OutClosestDistance (fold_left step ActorArray out)) = true ->
    (x <? OutClosestDistance out) = true.
Proof.
  induction ActorArray as [| p rest IH]; intros out x Hx.
  - exact Hx.
  - cbn [fold_left] in Hx. apply IH in Hx.
    destruct p as [b |]; cbn [step] in Hx; [| exact Hx].
    destruct (dist b <? OutClosestDistance out) eqn:Hb; [| exact Hx].
    cbn in Hx. exact (fltb_trans _ _ _ Hx Hb).
Qed.

(** No entry is closer than the final best. *)
Lemma fold_step_minimal (ActorArray : list Ptr) :
  forall (out : Out) (b : AActor),
    In (Some b) ActorArray ->
    (dist b <? OutClosestDistance (fold_left step ActorArray out)) = false.
Proof.
  induction ActorArray as [| p rest IH]; intros out b Hin.
  - destruct Hin.
  - cbn [fold_left]. destruct Hin as [-> | Hin]; [| now apply IH].
    destruct (dist b <? OutClosestDistance (fold_left step rest (step out (Some b))))
      eqn:Hlt; [| reflexivity].
    apply fold_step_decreases in Hlt. cbn [step] in Hlt.
    destruct (dist b <? OutClosestDistance out) eqn:Hb.
    + cbn in Hlt. now rewrite fltb_irrefl in Hlt.
    + now rewrite Hb in Hlt.
Qed.


End ClosestActorAnyArithmetic.

(** ** The minimum as an order statement *)

(** In the compiled arithmetic a comparison with NaN is false either way, so
    "no entry is less" is weaker than "every entry is at least as far".  With
    finite coordinates the computed distance is never NaN and the two
    agree. *)
Section ClosestActorIEEE.

Variable AActor : Type.
Variable ActorLocation : AActor -> FVector spec_float.
Variable SourceLocation : FVector spec_float.

Local Abbreviation dist := (DistanceTo ActorLocation SourceLocation).
Local Abbreviation step := (step ActorLocation SourceLocation).
Local Abbreviation initial := (@initial spec_float ieee AActor).

(** X3.  In the compiled arithmetic, with finite coordinates and some
    non-null entry whose computed distance is less than [MAX_FLT], the
    returned distance is less than or equal to the computed distance of every
    non-null entry. *)
Theorem FindClosestActor_minimum_leb :
  forall ActorArray : list (AActorPtr AActor),
    finite_vector SourceLocation = true ->
    (forall a, In (Some a) ActorArray -> finite_vector (ActorLocation a) = true) ->
    (exists a, In (Some a) ActorArray /\ SFltb (dist a) B32.max_flt = true) ->
    exists a,
      FindClosestActor ActorLocation SourceLocation ActorArray []
        = Some ((true, mkOutputs (Some a) (dist a)), live ActorArray)
      /\ In (Some a) ActorArray
      /\ forall b, In (Some b) ActorArray -> SFleb (dist a) (dist b) = true.
Proof.
  intros ActorArray Hsrc Hfin (a0 & Hin0 & Hlt0).
  rewrite FindClosestActor_fold. cbn [app].
  pose proof (@fold_step_minimal _ _ _ ActorLocation SourceLocation _
                ActorArray initial) as Hmin.
  destruct (fold_step_cases ActorLocation SourceLocation ActorArray initial)
    as [Heq | (a & Hin & Heq)].
  - specialize (Hmin a0 Hin0). rewrite Heq in Hmin. cbn in Hmin.
    change (SFltb (dist a0) B32.max_flt = false) in Hmin.
    rewrite Hlt0 in Hmin. discriminate.
  - exists a. rewrite Heq in *. cbn in Hmin. repeat split; try assumption.
    intros b Hb. apply SFltb_false_SFleb.
    + apply nonneg_not_nan, ieee_Distance_nonneg; [exact Hsrc | now apply Hfin].
    + apply nonneg_not_nan, ieee_Distance_nonneg; [exact Hsrc | now apply Hfin].
    + exact (Hmin b Hb).
Qed.

End ClosestActorIEEE.

Section ClosestActorExact.

Variable AActor : Type.
Variable ActorLocation : AActor -> FVector R.
Variable SourceLocation : FVector R.

Local Abbreviation dist := (DistanceTo ActorLocation SourceLocation).
Local Abbreviation initial := (@initial R exact AActor).

(** X4.  In exact arithmetic, with some non-null entry closer than
    [MAX_FLT], the returned distance is the least of the distances of the
    non-null entries. *)
Theorem FindClosestActor_minimum_exact :
  forall ActorArray : list (AActorPtr AActor),
    (exists a, In (Some a) ActorArray /\ (dist a < Exact.max_flt)%R) ->
    exists a,
      FindClosestActor ActorLocation SourceLocation ActorArray []
        = Some ((true, mkOutputs (Some a) (dist a)), live ActorArray)
      /\ In (Some a) ActorArray
      /\ forall b, In (Some b) ActorArray -> (dist a <= dist b)%R.
Proof.
  intros ActorArray (a0 & Hin0 & Hlt0).
  rewrite FindClosestActor_fold. cbn [app].
  pose proof (@fold_step_minimal _ _ _ ActorLocation SourceLocation _
                ActorArray initial) as Hmin.
  destruct (fold_step_cases ActorLocation SourceLocation ActorArray initial)
    as [Heq | (a & Hin & Heq)].
  - specialize (Hmin a0 Hin0). rewrite Heq in Hmin.
    change (Exact.ltb (dist a0) Exact.max_flt = false) in Hmin.
    unfold Exact.ltb in Hmin.
    destruct (Rlt_dec (dist a0) Exact.max_flt); [discriminate | contradiction].
  - exists a. rewrite Heq in *. repeat split; try assumption.
    intros b Hb. specialize (Hmin b Hb).
    change (Exact.ltb (dist b) (dist a) = false) in Hmin.
    unfold Exact.ltb in Hmin.
    destruct (Rlt_dec (dist b) (dist a)); [discriminate | lra].
Qed.

End ClosestActorExact.

(** ** FindClosestActor on concrete levels *)

Section ClosestActorScenarios.

Local Open Scope flt_scope.

Example FindClosestActor_S5 :
  FindClosestActor S5.Location S5.Source S5.Entities []
  = Some ((true, mkOutputs (Some S5.ActorB) (B32.of_Z 5)),
          [S5.ActorA; S5.ActorB; S5.ActorC]).
Proof. vm_compute. reflexivity. Qed.

Lemma FindClosestActor_all_null_witness :
  FindClosestActor S5.Location S5.Source [nullptr; nullptr] []
  = Some ((false, mkOutputs nullptr B32.max_flt), []).
Proof.
  refine (proj1 (@FindClosestActor_all_null _ _ _ S5.Location S5.Source
                   [nullptr; nullptr] [] _)).
  intros p [<- | [<- | []]]; reflexivity.
Defined.



Lemma FindClosestActor_minimum_leb_witness :
  exists a,
    FindClosestActor S5.Location S5.Source S5.Entities []
      = Some ((true, mkOutputs (Some a) (DistanceTo S5.Location S5.Source a)),
              live S5.Entities)
    /\ In (Some a) S5.Entities
    /\ forall b, In (Some b) S5.Entities ->
         SFleb (DistanceTo S5.Location S5.Source a)
               (DistanceTo S5.Location S5.Source b) = true.
Proof.
  refine (@FindClosestActor_minimum_leb _ S5.Location S5.Source
            S5.Entities _ _ _).
  - vm_compute. reflexivity.
  - intros [] _; vm_compute; reflexivity.
  - exists S5.ActorA. split; [right; left; reflexivity | vm_compute; reflexivity].
Defined.

Lemma FindClosestActor_minimum_exact_witness :
  exists a,
    FindClosestActor Near.Location Near.Source Near.Entities []
      = Some ((true, mkOutputs (Some a) (DistanceTo Near.Location Near.Source a)),
              live Near.Entities)
    /\ In (Some a) Near.Entities
    /\ forall b, In (Some b) Near.Entities ->
         (DistanceTo Near.Location Near.Source a
          <= DistanceTo Near.Location Near.Source b)%R.
Proof.
  refine (@FindClosestActor_minimum_exact _ Near.Location Near.Source
            Near.Entities _).
  exists Near.Near1. split; [left; reflexivity |].
  unfold DistanceTo, Distance. cbn.
  replace ((3 - 0) * (3 - 0) + (4 - 0) * (4 - 0) + (0 - 0) * (0 - 0))%R
    with (5 * 5)%R by ring.
  rewrite sqrt_square by lra. unfold Exact.max_flt. lra.
Defined.



Lemma ieee_far_distance (a : Far.Actor) :
  DistanceTo (Far.Location (FO := ieee)) Far.Source a = B32.max_flt.
Proof. vm_compute. reflexivity. Qed.

Lemma FindClosestActor_none_within_MAX_FLT_witness :
  FindClosestActor (Far.Location (FO := ieee)) Far.Source
    [Some Far.Far1; nullptr; Some Far.Far2] []
  = Some ((false, mkOutputs nullptr B32.max_flt), [Far.Far1; Far.Far2]).
Proof.
  refine (@FindClosestActor_none_within_MAX_FLT _ _ _
            (Far.Location (FO := ieee)) Far.Source
            [Some Far.Far1; nullptr; Some Far.Far2] _).
  intros b _. rewrite ieee_far_distance. reflexivity.
Defined.

(** The distance is computed on [double]: an actor [2^65] away, whose
    squared distance is no [float], is found, at the distance [2^65]. *)
Example FindClosestActor_remote :
  FindClosestActor Remote.Location Remote.Source [Some Remote.Remote1] []
  = Some ((true, mkOutputs (Some Remote.Remote1) (B32.pow2 65)), [Remote.Remote1]).
Proof. vm_compute. reflexivity. Qed.



End ClosestActorScenarios.

(** ** SmoothRotatorInterp in exact arithmetic *)

Section InterpAlphaExact.

Local Open Scope R_scope.

Lemma InterpAlpha_exact (DeltaTime InterpSpeed : R) :
  InterpAlpha DeltaTime InterpSpeed
  = if Rlt_dec (DeltaTime * InterpSpeed) 0 then 0
    else if Rlt_dec (DeltaTime * InterpSpeed) 1 then DeltaTime * InterpSpeed
    else 1.
Proof.
  unfold InterpAlpha, Clamp. cbn. unfold Exact.ltb.
  destruct (Rlt_dec (DeltaTime * InterpSpeed) 0); [reflexivity |].
  destruct (Rlt_dec (DeltaTime * InterpSpeed) 1); reflexivity.
Qed.

Lemma InterpAlpha_range (DeltaTime InterpSpeed : R) :
  0 <= InterpAlpha DeltaTime InterpSpeed <= 1.
Proof.
  rewrite InterpAlpha_exact.
  destruct (Rlt_dec (DeltaTime * InterpSpeed) 0); [lra |].
  destruct (Rlt_dec (DeltaTime * InterpSpeed) 1); lra.
Qed.

Lemma InterpAlpha_low (DeltaTime InterpSpeed : R) :
  DeltaTime * InterpSpeed <= 0 -> InterpAlpha DeltaTime InterpSpeed = 0.
Proof.
  intros H. rewrite InterpAlpha_exact.
  destruct (Rlt_dec (DeltaTime * InterpSpeed) 0); [reflexivity |].
  destruct (Rlt_dec (DeltaTime * InterpSpeed) 1); lra.
Qed.

Lemma InterpAlpha_high (DeltaTime InterpSpeed : R) :
  1 <= DeltaTime * InterpSpeed -> InterpAlpha DeltaTime InterpSpeed = 1.
Proof.
  intros H. rewrite InterpAlpha_exact.
  destruct (Rlt_dec (DeltaTime * InterpSpeed) 0); [lra |].
  destruct (Rlt_dec (DeltaTime * InterpSpeed) 1); lra.
Qed.

(** [FMath::Clamp] to [0, 1] over the reals is the usual clamp. *)
Lemma InterpAlpha_clamp (DeltaTime InterpSpeed : R) :
  InterpAlpha DeltaTime InterpSpeed = Rmax 0 (Rmin (DeltaTime * InterpSpeed) 1).
Proof.
  rewrite InterpAlpha_exact.
  destruct (Rlt_dec (DeltaTime * InterpSpeed) 0) as [H0 | H0].
  - rewrite Rmin_left by lra. rewrite Rmax_left by lra. reflexivity.
  - destruct (Rlt_dec (DeltaTime * InterpSpeed) 1) as [H1 | H1].
    + rewrite Rmin_left by lra. rewrite Rmax_right by lra. reflexivity.
    + rewrite Rmin_right by lra. rewrite Rmax_right by lra. reflexivity.
Qed.

End InterpAlphaExact.

Section SlerpFacts.

Local Open Scope R_scope.
Local Abbreviation X := FQ.X.
Local Abbreviation Y := FQ.Y.
Local Abbreviation Z := FQ.Z.
Local Abbreviation W := FQ.W.

Lemma FQuat_eq (A B : FQuat) :
  X A = X B -> Y A = Y B -> Z A = Z B -> W A = W B -> A = B.
Proof. destruct A, B. cbn. intros -> -> -> ->. reflexivity. Qed.

Lemma qneg_involutive (Q : FQuat) : qneg (qneg Q) = Q.
Proof. apply FQuat_eq; cbn; ring. Qed.

Lemma qSizeSquared_qneg (Q : FQuat) : qSizeSquared (qneg Q) = qSizeSquared Q.
Proof. unfold qSizeSquared. cbn. ring. Qed.

Lemma qdot_qneg_r (A B : FQuat) : qdot A (qneg B) = - qdot A B.
Proof. unfold qdot. cbn. ring. Qed.

Lemma qdot_self (A : FQuat) : qdot A A = qSizeSquared A.
Proof. reflexivity. Qed.

Lemma qdot_comm (A B : FQuat) : qdot A B = qdot B A.
Proof. unfold qdot. ring. Qed.

Lemma qcomb_one_zero (A B : FQuat) : qcomb 1 A 0 B = A.
Proof. apply FQuat_eq; cbn; ring. Qed.

Lemma qcomb_zero_one (A B : FQuat) : qcomb 0 A 1 B = B.
Proof. apply FQuat_eq; cbn; ring. Qed.

Lemma qcomb_zero_minus_one (A B : FQuat) : qcomb 0 A (-1) B = qneg B.
Proof. apply FQuat_eq; cbn; ring. Qed.

Lemma qcomb_qneg (a b : R) (A B : FQuat) : qcomb a A (- b) B = qcomb a A b (qneg B).
Proof. apply FQuat_eq; cbn; ring. Qed.

(** Cauchy-Schwarz on the 3-sphere. *)
Lemma qdot_unit_bound (A B : FQuat) :
  qSizeSquared A = 1 -> qSizeSquared B = 1 -> -1 <= qdot A B <= 1.
Proof.
  unfold qSizeSquared, qdot. destruct A as [a1 a2 a3 a4], B as [b1 b2 b3 b4]. cbn.
  intros HA HB.
  pose proof (Rle_0_sqr (a1 - b1)). pose proof (Rle_0_sqr (a2 - b2)).
  pose proof (Rle_0_sqr (a3 - b3)). pose proof (Rle_0_sqr (a4 - b4)).
  pose proof (Rle_0_sqr (a1 + b1)). pose proof (Rle_0_sqr (a2 + b2)).
  pose proof (Rle_0_sqr (a3 + b3)). pose proof (Rle_0_sqr (a4 + b4)).
  unfold Rsqr in *. split; nra.
Qed.

Lemma FloatSelect_abs (x : R) : FloatSelect x x (- x) = Rabs x.
Proof.
  unfold FloatSelect. destruct (Rle_dec 0 x).
  - symmetry. apply Rabs_pos_eq. exact r.
  - rewrite Rabs_left; lra.
Qed.

Lemma SLERP_LINEAR_COSOM_lt_1 : 0 < SLERP_LINEAR_COSOM < 1.
Proof. unfold SLERP_LINEAR_COSOM. lra. Qed.

Lemma Slerp_NotNormalized_scales (Quat1 Quat2 : FQuat) (Alpha : R) :
  Slerp_NotNormalized Quat1 Quat2 Alpha
  = qcomb (fst (SlerpScales (Rabs (qdot Quat1 Quat2)) Alpha)) Quat1
          (FloatSelect (qdot Quat1 Quat2)
             (snd (SlerpScales (Rabs (qdot Quat1 Quat2)) Alpha))
             (- snd (SlerpScales (Rabs (qdot Quat1 Quat2)) Alpha)))
          Quat2.
Proof.
  unfold Slerp_NotNormalized, SlerpScales. rewrite FloatSelect_abs. reflexivity.
Qed.

Lemma sin_acos_pos (c : R) : 0 <= c < 1 -> 0 < sin (acos c).
Proof.
  intros Hc. destruct (acos_bound_lt c) as [H0 H1]; [lra |].
  apply sin_gt_0; assumption.
Qed.

Lemma SlerpScales_0 (c : R) : 0 <= c -> SlerpScales c 0 = (1, 0).
Proof.
  intros Hc. unfold SlerpScales, Exact.ltb.
  destruct (Rlt_dec c SLERP_LINEAR_COSOM) as [Hlt | Hge].
  - pose proof SLERP_LINEAR_COSOM_lt_1.
    assert (Hs : 0 < sin (acos c)) by (apply sin_acos_pos; lra).
    f_equal.
    + replace ((1 - 0) * acos c) with (acos c) by ring. field. lra.
    + replace (0 * acos c) with 0 by ring. rewrite sin_0. ring.
  - f_equal. ring.
Qed.

Lemma SlerpScales_1 (c : R) : 0 <= c -> SlerpScales c 1 = (0, 1).
Proof.
  intros Hc. unfold SlerpScales, Exact.ltb.
  destruct (Rlt_dec c SLERP_LINEAR_COSOM) as [Hlt | Hge].
  - pose proof SLERP_LINEAR_COSOM_lt_1.
    assert (Hs : 0 < sin (acos c)) by (apply sin_acos_pos; lra).
    f_equal.
    + replace ((1 - 1) * acos c) with 0 by ring. rewrite sin_0. ring.
    + replace (1 * acos c) with (acos c) by ring. field. lra.
  - f_equal. ring.
Qed.

(** A unit quaternion is its own normalisation. *)
Lemma GetNormalized_unit (Q : FQuat) : qSizeSquared Q = 1 -> GetNormalized Q = Q.
Proof.
  intros HQ. unfold GetNormalized. rewrite HQ. cbn.
  destruct (Rle_dec Exact.small_number 1) as [_ | Hn].
  - unfold InvSqrt. cbn. rewrite sqrt_1. apply FQuat_eq; cbn; field.
  - exfalso. apply Hn. unfold Exact.small_number. lra.
Qed.

(** At parameter 0 the spherical interpolation is its first argument. *)
Lemma Slerp_0 (Quat1 Quat2 : FQuat) :
  qSizeSquared Quat1 = 1 -> Slerp Quat1 Quat2 0 = Quat1.
Proof.
  intros H1. unfold Slerp. rewrite Slerp_NotNormalized_scales.
  rewrite SlerpScales_0 by apply Rabs_pos. cbn [fst snd].
  replace (FloatSelect (qdot Quat1 Quat2) 0 (- 0)) with 0
    by (unfold FloatSelect; destruct (Rle_dec 0 (qdot Quat1 Quat2)); ring).
  rewrite qcomb_one_zero. now apply GetNormalized_unit.
Qed.

(** At parameter 1 it is its second argument, negated when the raw cosine is
    negative. *)
Lemma Slerp_1 (Quat1 Quat2 : FQuat) :
  qSizeSquared Quat2 = 1 ->
  Slerp Quat1 Quat2 1
  = if Rle_dec 0 (qdot Quat1 Quat2) then Quat2 else qneg Quat2.
Proof.
  intros H2. unfold Slerp. rewrite Slerp_NotNormalized_scales.
  rewrite SlerpScales_1 by apply Rabs_pos. cbn [fst snd].
  unfold FloatSelect. destruct (Rle_dec 0 (qdot Quat1 Quat2)).
  - rewrite qcomb_zero_one. now apply GetNormalized_unit.
  - rewrite qcomb_zero_minus_one. apply GetNormalized_unit.
    now rewrite qSizeSquared_qneg.
Qed.

Lemma Slerp_1_same_rotation (Quat1 Quat2 : FQuat) :
  qSizeSquared Quat2 = 1 -> same_rotation (Slerp Quat1 Quat2 1) Quat2.
Proof.
  intros H2. rewrite Slerp_1 by exact H2. unfold same_rotation.
  destruct (Rle_dec 0 (qdot Quat1 Quat2)); [now left | now right].
Qed.

End SlerpFacts.

(** *** The Tait-Bryan conversions at a few orientations *)

Section TaitBryanFacts.

Local Open Scope R_scope.

Lemma TaitBryan_Quaternion_unit (Rot : FRotator) :
  qSizeSquared (TaitBryan.Quaternion Rot) = 1.
Proof.
  unfold TaitBryan.Quaternion, qSizeSquared. cbn.
  pose proof (sin2_cos2 (Pitch Rot * (PI / 180 / 2))) as HP.
  pose proof (sin2_cos2 (Yaw Rot * (PI / 180 / 2))) as HY.
  pose proof (sin2_cos2 (Roll Rot * (PI / 180 / 2))) as HR.
  unfold Rsqr in HP, HY, HR.
  set (sp := sin (Pitch Rot * (PI / 180 / 2))) in *.
  set (cp := cos (Pitch Rot * (PI / 180 / 2))) in *.
  set (sy := sin (Yaw Rot * (PI / 180 / 2))) in *.
  set (cy := cos (Yaw Rot * (PI / 180 / 2))) in *.
  set (sr := sin (Roll Rot * (PI / 180 / 2))) in *.
  set (cr := cos (Roll Rot * (PI / 180 / 2))) in *.
  transitivity ((sr * sr + cr * cr) * (sp * sp + cp * cp) * (sy * sy + cy * cy)).
  - ring.
  - rewrite HP, HY, HR. ring.
Qed.

(** A yaw of [Yaw] degrees alone is the quaternion
    [(0, 0, sin(Yaw/2), cos(Yaw/2))]. *)
Lemma TaitBryan_Quaternion_yaw (yaw : R) :
  TaitBryan.Quaternion (mkFRotator 0 yaw 0)
  = mkFQuat 0 0 (sin (yaw * (PI / 180 / 2))) (cos (yaw * (PI / 180 / 2))).
Proof.
  unfold TaitBryan.Quaternion. cbn.
  replace (0 * (PI / 180 / 2)) with 0 by ring. rewrite sin_0, cos_0.
  apply FQuat_eq; cbn; ring.
Qed.

Lemma TaitBryan_Quaternion_0 :
  TaitBryan.Quaternion (mkFRotator 0 0 0) = mkFQuat 0 0 0 1.
Proof.
  rewrite TaitBryan_Quaternion_yaw.
  replace (0 * (PI / 180 / 2)) with 0 by ring. now rewrite sin_0, cos_0.
Qed.

Lemma TaitBryan_Quaternion_yaw180 :
  TaitBryan.Quaternion (mkFRotator 0 180 0) = mkFQuat 0 0 1 0.
Proof.
  rewrite TaitBryan_Quaternion_yaw.
  replace (180 * (PI / 180 / 2)) with (PI / 2) by field.
  now rewrite sin_PI2, cos_PI2.
Qed.

Lemma Atan2_0_pos (x : R) : 0 < x -> TaitBryan.Atan2 0 x = 0.
Proof.
  intros Hx. unfold TaitBryan.Atan2. destruct (Rlt_dec 0 x); [| contradiction].
  replace (0 / x) with 0 by (field; lra). apply atan_0.
Qed.

Lemma Atan2_0_neg (x : R) : x < 0 -> TaitBryan.Atan2 0 x = PI.
Proof.
  intros Hx. unfold TaitBryan.Atan2.
  destruct (Rlt_dec 0 x); [lra |]. destruct (Rlt_dec x 0); [| contradiction].
  destruct (Rle_dec 0 0); [| lra].
  replace (0 / x) with 0 by (field; lra). rewrite atan_0. ring.
Qed.

(** Away from the poles, on a quaternion with no [X] and no [Y], the
    conversion is a pure yaw. *)
Lemma TaitBryan_Rotator_ZW (z w : R) :
  TaitBryan.Rotator (mkFQuat 0 0 z w)
  = mkFRotator 0 (TaitBryan.Atan2 (2 * (w * z)) (1 - 2 * (z * z)) * (180 / PI)) 0.
Proof.
  unfold TaitBryan.Rotator. cbn.
  replace (z * 0 - w * 0) with 0 by ring.
  destruct (Rlt_dec 0 (- TaitBryan.SINGULARITY_THRESHOLD)) as [H | _];
    [unfold TaitBryan.SINGULARITY_THRESHOLD in H; lra |].
  destruct (Rlt_dec TaitBryan.SINGULARITY_THRESHOLD 0) as [H | _];
    [unfold TaitBryan.SINGULARITY_THRESHOLD in H; lra |].
  replace (2 * 0) with 0 by ring. rewrite asin_0.
  replace (-2 * (w * 0 + 0 * z)) with 0 by ring.
  replace (1 - 2 * (0 * 0 + 0 * 0)) with 1 by ring.
  rewrite Atan2_0_pos by lra.
  replace (w * z + 0 * 0) with (w * z) by ring.
  replace (0 * 0 + z * z) with (z * z) by ring.
  f_equal; ring.
Qed.

Lemma TaitBryan_Rotator_identity (w : R) :
  w = 1 \/ w = -1 -> TaitBryan.Rotator (mkFQuat 0 0 0 w) = mkFRotator 0 0 0.
Proof.
  intros Hw. rewrite TaitBryan_Rotator_ZW.
  replace (2 * (w * 0)) with 0 by ring.
  replace (1 - 2 * (0 * 0)) with 1 by ring.
  rewrite Atan2_0_pos by lra. f_equal. ring.
Qed.

Lemma TaitBryan_Rotator_yaw180 :
  TaitBryan.Rotator (mkFQuat 0 0 1 0) = mkFRotator 0 180 0.
Proof.
  rewrite TaitBryan_Rotator_ZW.
  replace (2 * (0 * 1)) with 0 by ring.
  replace (1 - 2 * (1 * 1)) with (-1) by ring.
  rewrite Atan2_0_neg by lra. f_equal. field. apply PI_neq0.
Qed.

End TaitBryanFacts.

(** *** The end points of the interpolation *)

Section SmoothRotatorInterpEndpoints.

Local Open Scope R_scope.

Variable Quaternion : FRotator -> FQuat.
Variable Rotator : FQuat -> FRotator.
Variable QuatSlerp : FQuat -> FQuat -> R -> FQuat.

(** What the library relies on: the conversion yields unit quaternions, and
    the spherical interpolation of two unit quaternions is the first at
    parameter 0 and the second, up to sign, at parameter 1. *)
Hypothesis Quaternion_unit : forall Rot, qSizeSquared (Quaternion Rot) = 1.
Hypothesis QuatSlerp_0 :
  forall A B, qSizeSquared A = 1 -> qSizeSquared B = 1 -> QuatSlerp A B 0 = A.
Hypothesis QuatSlerp_1 :
  forall A B, qSizeSquared A = 1 -> qSizeSquared B = 1 ->
              same_rotation (QuatSlerp A B 1) B.

Lemma same_rotation_refl (Q : FQuat) : same_rotation Q Q.
Proof. now left. Qed.

(** C6, amended.  On an engine whose conversion yields unit quaternions and
    whose [Slerp] is as above at 0 and 1, [SmoothRotatorInterp] interpolates
    with parameter [clamp(DeltaTime * InterpSpeed, 0, 1)].  When
    [DeltaTime * InterpSpeed <= 0], as when one of the two is [<= 0] and the
    other [>= 0], the result denotes the orientation of [Current]; when
    [DeltaTime * InterpSpeed >= 1] it denotes the orientation of [Target];
    both up to the quaternion-to-Euler round trip. *)
Theorem SmoothRotatorInterp_endpoints :
  forall (Current Target : FRotator) (DeltaTime InterpSpeed : R),
    let Result := SmoothRotatorInterp Quaternion Rotator QuatSlerp
                    Current Target DeltaTime InterpSpeed in
    Result = Rotator (QuatSlerp (Quaternion Current) (Quaternion Target)
                        (Clamp (DeltaTime * InterpSpeed) 0 1))
    /\ (DeltaTime * InterpSpeed <= 0 -> denotes Rotator Result (Quaternion Current))
    /\ ((DeltaTime <= 0 /\ 0 <= InterpSpeed) \/ (0 <= DeltaTime /\ InterpSpeed <= 0) ->
        denotes Rotator Result (Quaternion Current))
    /\ (1 <= DeltaTime * InterpSpeed -> denotes Rotator Result (Quaternion Target)).
Proof.
  intros Current Target DeltaTime InterpSpeed Result.
  assert (Hlow : DeltaTime * InterpSpeed <= 0 ->
                 denotes Rotator Result (Quaternion Current)).
  { intros H. exists (Quaternion Current). split; [apply same_rotation_refl |].
    unfold Result, SmoothRotatorInterp, ResultQuat.
    rewrite (InterpAlpha_low H).
    now rewrite QuatSlerp_0 by apply Quaternion_unit. }
  split; [reflexivity | split; [exact Hlow | split]].
  - intros H. apply Hlow. nra.
  - intros H.
    exists (QuatSlerp (Quaternion Current) (Quaternion Target) 1). split.
    + apply QuatSlerp_1; apply Quaternion_unit.
    + unfold Result, SmoothRotatorInterp, ResultQuat.
      now rewrite (InterpAlpha_high H).
Qed.

End SmoothRotatorInterpEndpoints.

Section SmoothRotatorInterpScenarios.

Local Open Scope R_scope.

Lemma SmoothRotatorInterp_endpoints_witness :
  denotes TaitBryan.Rotator
    (SmoothRotatorInterp TaitBryan.Quaternion TaitBryan.Rotator Slerp
       (mkFRotator 0 0 0) (mkFRotator 0 90 0) 0 1)
    (TaitBryan.Quaternion (mkFRotator 0 0 0)).
Proof.
  refine (proj1 (proj2 (@SmoothRotatorInterp_endpoints
                          TaitBryan.Quaternion TaitBryan.Rotator Slerp
                          TaitBryan_Quaternion_unit
                          (fun A B HA _ => Slerp_0 B HA)
                          (fun A B _ HB => Slerp_1_same_rotation A HB)
                          (mkFRotator 0 0 0) (mkFRotator 0 90 0) 0 1)) _).
  lra.
Defined.

(** C6 as stated fails: with [DeltaTime = InterpSpeed = -1], both [<= 0],
    the product is 1, the parameter clamps to 1 and not to 0, and from
    [Current = (0,0,0)] towards [Target = (0,180,0)] the function returns
    [(0,180,0)], which does not denote the orientation of [Current]. *)
Lemma SmoothRotatorInterp_endpoints_counterexample :
  (-1 <= 0 \/ -1 <= 0)
  /\ InterpAlpha (-1) (-1) = 1
  /\ InterpAlpha (B32.of_Z (-1)) (B32.of_Z (-1)) = B32.one
  /\ SmoothRotatorInterp TaitBryan.Quaternion TaitBryan.Rotator Slerp
       (mkFRotator 0 0 0) (mkFRotator 0 180 0) (-1) (-1)
     = mkFRotator 0 180 0
  /\ ~ denotes TaitBryan.Rotator
         (SmoothRotatorInterp TaitBryan.Quaternion TaitBryan.Rotator Slerp
            (mkFRotator 0 0 0) (mkFRotator 0 180 0) (-1) (-1))
         (TaitBryan.Quaternion (mkFRotator 0 0 0)).
Proof.
  assert (Halpha : InterpAlpha (-1) (-1) = 1) by (apply InterpAlpha_high; lra).
  assert (Hres : SmoothRotatorInterp TaitBryan.Quaternion TaitBryan.Rotator Slerp
                   (mkFRotator 0 0 0) (mkFRotator 0 180 0) (-1) (-1)
                 = mkFRotator 0 180 0).
  { unfold SmoothRotatorInterp, ResultQuat. rewrite Halpha.
    rewrite Slerp_1 by apply TaitBryan_Quaternion_unit.
    rewrite TaitBryan_Quaternion_0, TaitBryan_Quaternion_yaw180.
    destruct (Rle_dec 0 (qdot (mkFQuat 0 0 0 1) (mkFQuat 0 0 1 0))) as [_ | Hn].
    - apply TaitBryan_Rotator_yaw180.
    - exfalso. apply Hn. unfold qdot. cbn. lra. }
  split; [left; lra | split; [exact Halpha | split; [reflexivity |]]].
  split; [exact Hres |].
  rewrite Hres, TaitBryan_Quaternion_0. intros (Q' & [-> | ->] & HQ').
  - rewrite (TaitBryan_Rotator_identity (w := 1)) in HQ' by now left.
    injection HQ' as HQ'. lra.
  - change (qneg (mkFQuat 0 0 0 1)) with (mkFQuat (- 0) (- 0) (- 0) (- 1)) in HQ'.
    replace (- 0) with 0 in HQ' by ring.
    rewrite (TaitBryan_Rotator_identity (w := - 1)) in HQ' by now right.
    injection HQ' as HQ'. lra.
Qed.

End SmoothRotatorInterpScenarios.

(** *** The shorter arc *)

Section ShortestArc.

Local Open Scope R_scope.
Local Abbreviation X := FQ.X.
Local Abbreviation Y := FQ.Y.
Local Abbreviation Z := FQ.Z.
Local Abbreviation W := FQ.W.

(** With a negative raw cosine the interpolation is that towards the negated
    second quaternion. *)
Lemma Slerp_NotNormalized_negative (A B : FQuat) (t : R) :
  qdot A B < 0 ->
  Slerp_NotNormalized A B t = Slerp_NotNormalized A (qneg B) t
  /\ Slerp_NotNormalized A B t
     = qcomb (fst (SlerpScales (Rabs (qdot A B)) t)) A
             (snd (SlerpScales (Rabs (qdot A B)) t)) (qneg B).
Proof.
  intros Hneg. rewrite !Slerp_NotNormalized_scales.
  rewrite qdot_qneg_r, Rabs_Ropp. unfold FloatSelect.
  destruct (Rle_dec 0 (qdot A B)); [lra |].
  destruct (Rle_dec 0 (- qdot A B)); [| lra].
  rewrite qcomb_qneg. split; reflexivity.
Qed.

(** For a parameter in [0, 1] both weights are non-negative. *)
Lemma SlerpScales_nonneg (c t : R) :
  0 <= c -> 0 <= t <= 1 ->
  0 <= fst (SlerpScales c t) /\ 0 <= snd (SlerpScales c t).
Proof.
  intros Hc Ht. unfold SlerpScales, Exact.ltb.
  destruct (Rlt_dec c SLERP_LINEAR_COSOM) as [Hlt | Hge]; cbn [fst snd]; [| lra].
  pose proof SLERP_LINEAR_COSOM_lt_1.
  assert (Hs : 0 < sin (acos c)) by (apply sin_acos_pos; lra).
  pose proof (acos_bound c) as [Ha0 Ha1].
  assert (Hinv : 0 < 1 / sin (acos c)) by (apply Rdiv_lt_0_compat; lra).
  split; apply Rmult_le_pos; try lra; apply sin_ge_0; nra.
Qed.

(** Half way both weights are the same, and at least one half. *)
Lemma SlerpScales_half (c : R) :
  0 <= c -> exists s, 1 / 2 <= s /\ SlerpScales c (1 / 2) = (s, s).
Proof.
  intros Hc. unfold SlerpScales, Exact.ltb.
  destruct (Rlt_dec c SLERP_LINEAR_COSOM) as [Hlt | Hge].
  - pose proof SLERP_LINEAR_COSOM_lt_1.
    destruct (acos_bound_lt c) as [Ha0 Ha1]; [lra |].
    set (h := acos c / 2).
    assert (Hh : acos c = 2 * h) by (unfold h; field).
    assert (Hsh : 0 < sin h) by (apply sin_gt_0; unfold h; lra).
    assert (Hch : 0 < cos h) by (apply cos_gt_0; unfold h; lra).
    assert (Hch1 : cos h <= 1) by apply COS_bound.
    exists (sin h * (1 / sin (acos c))). split.
    + rewrite Hh, sin_2a.
      replace (sin h * (1 / (2 * sin h * cos h))) with (1 / (2 * cos h))
        by (field; lra).
      apply Rmult_le_reg_r with (2 * cos h); [lra |].
      replace (1 / (2 * cos h) * (2 * cos h)) with 1 by (field; lra). lra.
    + f_equal; f_equal; f_equal; unfold h; field.
  - exists (1 / 2). split; [lra |]. f_equal. lra.
Qed.

(** The normalised sum of two unit quaternions with non-negative cosine [c]
    has the cosine [sqrt((1+c)/2)] with each of them. *)
Lemma midpoint_cosines (A B : FQuat) (s : R) :
  qSizeSquared A = 1 -> qSizeSquared B = 1 -> 0 <= qdot A B -> 1 / 2 <= s ->
  let M := GetNormalized (qcomb s A s B) in
  qdot M A * qdot M A = (1 + qdot A B) / 2
  /\ qdot M B * qdot M B = (1 + qdot A B) / 2.
Proof.
  intros HA HB Hc Hs M.
  assert (HN : qSizeSquared (qcomb s A s B) = s * s * (2 + 2 * qdot A B)).
  { unfold qSizeSquared, qdot in *. cbn.
    transitivity (s * s * ((X A * X A + Y A * Y A + Z A * Z A + W A * W A)
                           + (X B * X B + Y B * Y B + Z B * Z B + W B * W B)
                           + 2 * (X A * X B + Y A * Y B + Z A * Z B + W A * W B)));
      [ring | rewrite HA, HB; ring]. }
  assert (Hss : 1 / 4 <= s * s) by nra.
  assert (HNpos : 1 / 2 <= s * s * (2 + 2 * qdot A B)) by nra.
  assert (HMA : qdot (qcomb s A s B) A = s * (1 + qdot A B)).
  { unfold qSizeSquared, qdot in *. cbn.
    transitivity (s * ((X A * X A + Y A * Y A + Z A * Z A + W A * W A)
                       + (X A * X B + Y A * Y B + Z A * Z B + W A * W B)));
      [ring | rewrite HA; ring]. }
  assert (HMB : qdot (qcomb s A s B) B = s * (1 + qdot A B)).
  { unfold qSizeSquared, qdot in *. cbn.
    transitivity (s * ((X B * X B + Y B * Y B + Z B * Z B + W B * W B)
                       + (X A * X B + Y A * Y B + Z A * Z B + W A * W B)));
      [ring | rewrite HB; ring]. }
  assert (HM : forall C, qdot M C = qdot (qcomb s A s B) C
                                    * (1 / sqrt (s * s * (2 + 2 * qdot A B)))).
  { intros C. unfold M, GetNormalized. rewrite HN. cbn.
    destruct (Rle_dec Exact.small_number (s * s * (2 + 2 * qdot A B))) as [_ | Hn].
    - unfold InvSqrt, qdot. cbn. ring.
    - exfalso. apply Hn. unfold Exact.small_number. lra. }
  assert (Hsq : sqrt (s * s * (2 + 2 * qdot A B)) * sqrt (s * s * (2 + 2 * qdot A B))
                = s * s * (2 + 2 * qdot A B)) by (apply sqrt_sqrt; lra).
  assert (Hsqpos : 0 < sqrt (s * s * (2 + 2 * qdot A B))) by (apply sqrt_lt_R0; lra).
  set (r := sqrt (s * s * (2 + 2 * qdot A B))) in *.
  assert (Hkey : forall u, u = s * (1 + qdot A B) ->
                           u * (1 / r) * (u * (1 / r)) = (1 + qdot A B) / 2).
  { intros u ->.
    transitivity (s * s * (1 + qdot A B) * (1 + qdot A B) / (r * r));
      [field; lra | rewrite Hsq; field; lra]. }
  split; rewrite HM; apply Hkey; assumption.
Qed.

(** A cosine whose square is at least one half belongs to an angle of at most
    45 degrees between the quaternions, 90 degrees between the orientations. *)
Lemma angular_distance_quarter_turn (M A : FQuat) :
  1 / 2 <= qdot M A * qdot M A <= 1 -> angular_distance M A <= PI / 2.
Proof.
  intros [Hlo Hhi]. unfold angular_distance.
  set (y := Rabs (qdot M A)).
  assert (Hy0 : 0 <= y) by apply Rabs_pos.
  assert (Hyy : y * y = qdot M A * qdot M A).
  { unfold y. rewrite <- Rabs_mult. apply Rabs_pos_eq. nra. }
  assert (Hy1 : y <= 1) by nra.
  assert (Hr2 : 0 < sqrt 2) by (apply sqrt_lt_R0; lra).
  assert (Hr2sq : sqrt 2 * sqrt 2 = 2) by (apply sqrt_sqrt; lra).
  assert (Hcos : cos (PI / 4) <= cos (acos y)).
  { rewrite cos_PI4, cos_acos by lra.
    apply Rsqr_incr_0; [| apply Rlt_le, Rdiv_lt_0_compat; lra | exact Hy0].
    unfold Rsqr. rewrite Hyy.
    replace (1 / sqrt 2 * (1 / sqrt 2)) with (1 / (sqrt 2 * sqrt 2)) by (field; lra).
    rewrite Hr2sq. lra. }
  pose proof (acos_bound y) as [Ha0 Ha1].
  pose proof PI_RGT_0.
  assert (acos y <= PI / 4) by (apply cos_decr_0; lra).
  lra.
Qed.

(** A quaternion whose squared cosine with [A] is [(1 + c) / 2] is half the
    angle of cosine [c] away from [A]. *)
Lemma angular_distance_half (M A : FQuat) (c : R) :
  0 <= c <= 1 -> qdot M A * qdot M A = (1 + c) / 2 ->
  angular_distance M A = acos c.
Proof.
  intros [Hc0 Hc1] Hsq. unfold angular_distance.
  pose proof (acos_bound c) as [Ha0 Ha1].
  pose proof PI_RGT_0 as Hpi.
  assert (Hle : acos c <= PI / 2).
  { apply cos_decr_0; try lra. rewrite cos_acos, cos_PI2 by lra. exact Hc0. }
  set (h := acos c / 2).
  assert (Hch : 0 <= cos h) by (apply cos_ge_0; unfold h; lra).
  assert (Hcos : cos h * cos h = (1 + c) / 2).
  { assert (H2 : cos (2 * h) = c).
    { unfold h. replace (2 * (acos c / 2)) with (acos c) by field.
      apply cos_acos. lra. }
    rewrite cos_2a_cos in H2. lra. }
  assert (Habs : Rabs (qdot M A) = cos h).
  { apply Rsqr_inj; [apply Rabs_pos | exact Hch |].
    unfold Rsqr. rewrite <- Rabs_mult, Rabs_pos_eq by nra. lra. }
  rewrite Habs, acos_cos by (unfold h; lra). unfold h. field.
Qed.

Variable Quaternion : FRotator -> FQuat.
Variable Rotator : FQuat -> FRotator.
Hypothesis Quaternion_unit : forall Rot, qSizeSquared (Quaternion Rot) = 1.

(** C7.  When the unit quaternions of [Current] and [Target] have a negative
    dot product, [SmoothRotatorInterp] interpolates as if the quaternion of
    [Target] were negated, with the parameter [DeltaTime * InterpSpeed]
    brought into [0, 1]; for every [DeltaTime] and [InterpSpeed] the
    interpolant is the normalisation of a combination, with non-negative
    weights, of the quaternion of [Current] and the negated quaternion of
    [Target], hence on the arc between these two, whose cosine is positive;
    and when [DeltaTime * InterpSpeed] is one half the interpolated
    orientation is half way between those of [Current] and [Target]: as far
    from one as from the other, half their angular distance, which is at most
    90 degrees. *)
Theorem SmoothRotatorInterp_shortest_arc :
  forall (Current Target : FRotator),
    qdot (Quaternion Current) (Quaternion Target) < 0 ->
    forall (DeltaTime InterpSpeed : R),
      let A := Quaternion Current in
      let B := Quaternion Target in
      let Q := ResultQuat Quaternion Slerp Current Target DeltaTime InterpSpeed in
      SmoothRotatorInterp Quaternion Rotator Slerp Current Target DeltaTime InterpSpeed
        = Rotator (Slerp A (qneg B) (Rmax 0 (Rmin (DeltaTime * InterpSpeed) 1)))
      /\ 0 < qdot A (qneg B)
      /\ (exists a b, 0 <= a /\ 0 <= b /\ Q = GetNormalized (qcomb a A b (qneg B)))
      /\ (DeltaTime * InterpSpeed = 1 / 2 ->
          angular_distance Q A = angular_distance A B / 2
          /\ angular_distance Q B = angular_distance A B / 2
          /\ angular_distance Q A <= PI / 2
          /\ angular_distance Q B <= PI / 2).
Proof.
  intros Current Target Hneg DeltaTime InterpSpeed A B Q.
  fold A B in Hneg.
  set (t := InterpAlpha DeltaTime InterpSpeed).
  destruct (Slerp_NotNormalized_negative t Hneg) as [Hflip Hcomb].
  assert (HA : qSizeSquared A = 1) by apply Quaternion_unit.
  assert (HB : qSizeSquared B = 1) by apply Quaternion_unit.
  assert (HQ : Q = GetNormalized (Slerp_NotNormalized A B t)) by reflexivity.
  split; [| split; [| split]].
  - unfold SmoothRotatorInterp. fold Q. rewrite HQ. unfold Slerp.
    rewrite Hflip. unfold t. now rewrite InterpAlpha_clamp.
  - rewrite qdot_qneg_r. lra.
  - destruct (@SlerpScales_nonneg (Rabs (qdot A B)) t) as [H0 H1];
      [apply Rabs_pos | apply InterpAlpha_range |].
    eexists _, _. split; [exact H0 | split; [exact H1 |]].
    rewrite HQ. now rewrite Hcomb.
  - intros Hhalf.
    assert (Ht : t = 1 / 2).
    { unfold t. rewrite InterpAlpha_clamp, Hhalf.
      rewrite Rmin_left, Rmax_right by lra. reflexivity. }
    destruct (@SlerpScales_half (Rabs (qdot A B))) as (s & Hs & Hscales);
      [apply Rabs_pos |].
    rewrite Ht, Hscales in Hcomb. cbn [fst snd] in Hcomb.
    rewrite Ht, Hcomb in HQ.
    pose proof (qdot_unit_bound HA HB) as [Hlo Hhi].
    assert (HB' : qSizeSquared (qneg B) = 1) by now rewrite qSizeSquared_qneg.
    assert (Hc : 0 <= qdot A (qneg B)) by (rewrite qdot_qneg_r; lra).
    destruct (midpoint_cosines HA HB' Hc Hs) as [HMA HMB].
    rewrite <- HQ in HMA, HMB. rewrite !qdot_qneg_r in HMA, HMB.
    assert (HMB' : qdot Q B * qdot Q B = (1 + - qdot A B) / 2).
    { replace (qdot Q B * qdot Q B) with (- qdot Q B * - qdot Q B) by ring.
      rewrite HMB, qdot_qneg_r. reflexivity. }
    assert (Habs : Rabs (qdot A B) = - qdot A B) by (apply Rabs_left; exact Hneg).
    assert (HAB : angular_distance A B / 2 = acos (- qdot A B)).
    { unfold angular_distance. rewrite Habs. field. }
    rewrite HAB.
    split; [| split; [| split]].
    + apply angular_distance_half; [lra | exact HMA].
    + apply angular_distance_half; [lra | exact HMB'].
    + apply angular_distance_quarter_turn. rewrite HMA. lra.
    + apply angular_distance_quarter_turn. rewrite HMB'. lra.
Qed.

End ShortestArc.

(** From a yaw of 0 to a yaw of 200 degrees: the two orientations are 160
    degrees apart, the shorter way round, and the raw cosine of the two
    quaternions is negative. *)
Section ShortestArcScenario.

Local Open Scope R_scope.

(** Two yaws: the cosine of the two quaternions is that of half the
    difference. *)
Lemma TaitBryan_yaw_qdot (yaw1 yaw2 : R) :
  qdot (TaitBryan.Quaternion (mkFRotator 0 yaw1 0))
       (TaitBryan.Quaternion (mkFRotator 0 yaw2 0))
  = cos ((yaw2 - yaw1) * (PI / 180 / 2)).
Proof.
  rewrite !TaitBryan_Quaternion_yaw. unfold qdot. cbn.
  replace ((yaw2 - yaw1) * (PI / 180 / 2))
    with (yaw2 * (PI / 180 / 2) - yaw1 * (PI / 180 / 2)) by ring.
  rewrite cos_minus. ring.
Qed.

(** From a yaw of 0 to a yaw of 200 degrees the raw cosine is
    [cos 100 < 0]. *)
Lemma yaw_200_negative_cosine :
  qdot (TaitBryan.Quaternion (mkFRotator 0 0 0))
       (TaitBryan.Quaternion (mkFRotator 0 200 0)) < 0.
Proof.
  rewrite TaitBryan_yaw_qdot. pose proof PI_RGT_0. apply cos_lt_0; lra.
Qed.

(** The two orientations are 160 degrees apart. *)
Lemma yaw_200_angular_distance :
  angular_distance (TaitBryan.Quaternion (mkFRotator 0 0 0))
                   (TaitBryan.Quaternion (mkFRotator 0 200 0))
  = 8 * PI / 9.
Proof.
  unfold angular_distance. rewrite TaitBryan_yaw_qdot.
  pose proof PI_RGT_0.
  replace ((200 - 0) * (PI / 180 / 2)) with (PI - 4 * PI / 9) by field.
  rewrite Rtrigo_facts.cos_pi_minus, Rabs_Ropp.
  rewrite Rabs_pos_eq by (apply cos_ge_0; lra).
  rewrite acos_cos by lra. field.
Qed.

Lemma SmoothRotatorInterp_shortest_arc_witness :
  let Current := mkFRotator 0 0 0 in
  let Target := mkFRotator 0 200 0 in
  let Q := ResultQuat TaitBryan.Quaternion Slerp Current Target (1 / 2) 1 in
  PI / 2 < angular_distance (TaitBryan.Quaternion Current)
                            (TaitBryan.Quaternion Target)
  /\ angular_distance Q (TaitBryan.Quaternion Current) = 4 * PI / 9
  /\ angular_distance Q (TaitBryan.Quaternion Target) = 4 * PI / 9
  /\ angular_distance Q (TaitBryan.Quaternion Current) <= PI / 2
  /\ angular_distance Q (TaitBryan.Quaternion Target) <= PI / 2.
Proof.
  intros Current Target Q.
  assert (Hhalf : 1 / 2 * 1 = 1 / 2) by lra.
  pose proof (proj2 (proj2 (proj2
           (@SmoothRotatorInterp_shortest_arc
              TaitBryan.Quaternion TaitBryan.Rotator TaitBryan_Quaternion_unit
              Current Target yaw_200_negative_cosine
              (1 / 2) 1))) Hhalf) as (HA & HB & HA' & HB').
  cbv zeta in HA, HB, HA', HB'. subst Q Current Target.
  rewrite yaw_200_angular_distance in HA, HB.
  split; [rewrite yaw_200_angular_distance; pose proof PI_RGT_0; lra |].
  split; [rewrite HA; field |].
  split; [rewrite HB; field |].
  split; assumption.
Defined.

End ShortestArcScenario.

(** ** CalculateJumpVelocity on degenerate inputs *)

Section JumpVelocityDegenerate.

Local Abbreviation X := FVec.X.
Local Abbreviation Y := FVec.Y.
Local Abbreviation Z := FVec.Z.

(** Whatever [float] is divided by a zero is an infinity or NaN. *)
Lemma b32_div_zero_not_finite (x t : spec_float) :
  B32.is_zero t = true -> B32.is_finite (x / t)%flt = false.
Proof.
  destruct t as [s | | |]; try discriminate. intros _.
  destruct x as [[] | [] | | [] m e], s; reflexivity.
Qed.

(** An infinity or NaN stays one when it is converted to [double]. *)
Lemma of_float_not_finite (x : spec_float) :
  B32.is_finite x = false -> B32.is_finite (to_real x) = false.
Proof. destruct x; try discriminate; reflexivity. Qed.

(** Whatever is multiplied by an infinity or NaN is an infinity or NaN. *)
Lemma b64_mul_not_finite (x y : spec_float) :
  B32.is_finite y = false -> B32.is_finite (x * y)%re = false.
Proof.
  destruct y as [| sy | |]; try discriminate; intros _;
    destruct x as [[] | [] | | [] m e]; try destruct sy; reflexivity.
Qed.

(** X6.  In the compiled arithmetic, with a jump time of zero, [+0] or [-0],
    every component of the result is an infinity or NaN, whatever the
    positions and the gravity: each component ends in a division by
    [JumpTime] or a product with one. *)
Theorem CalculateJumpVelocity_zero_time :
  forall (StartPos TargetPos : FVector spec_float) (GravityZ JumpTime : spec_float),
    B32.is_zero JumpTime = true ->
    let v0 := CalculateJumpVelocity StartPos TargetPos GravityZ JumpTime in
    B32.is_finite (X v0) = false
    /\ B32.is_finite (Y v0) = false
    /\ B32.is_finite (Z v0) = false.
Proof.
  intros S T g JT HJT v0. subst v0.
  rewrite CalculateJumpVelocity_X, CalculateJumpVelocity_Y, CalculateJumpVelocity_Z.
  repeat split.
  - apply b64_mul_not_finite, of_float_not_finite, b32_div_zero_not_finite, HJT.
  - apply b64_mul_not_finite, of_float_not_finite, b32_div_zero_not_finite, HJT.
  - apply of_float_not_finite, b32_div_zero_not_finite, HJT.
Qed.

Lemma CalculateJumpVelocity_zero_time_witness :
  let v0 := CalculateJumpVelocity
              (mkFVector (B64.of_Z 0) (B64.of_Z 0) (B64.of_Z 0))
              (mkFVector (B64.of_Z 100) (B64.of_Z 0) (B64.of_Z 50))
              (B32.of_Z (-980)) (B32.of_Z 0) in
  B32.is_finite (X v0) = false
  /\ B32.is_finite (Y v0) = false
  /\ B32.is_finite (Z v0) = false.
Proof.
  refine (@CalculateJumpVelocity_zero_time
            (mkFVector (B64.of_Z 0) (B64.of_Z 0) (B64.of_Z 0))
            (mkFVector (B64.of_Z 100) (B64.of_Z 0) (B64.of_Z 50))
            (B32.of_Z (-980)) (B32.of_Z 0) _).
  reflexivity.
Defined.

(** When the squared length, a [double], overflows, the size is
    [+infinity] as a [float] too, and [Normalize] scales by
    [1 / sqrt(+infinity)], which is [+0]: a component of the direction is
    then a zero, or NaN if it was not finite. *)
Lemma ieee_overflow_direction (D : FVector spec_float) :
  SizeSquared D = S754_infinity false ->
  to_float (Size D) = S754_infinity false
  /\ (B32.is_zero (X (Normalize D)) = true \/ B32.is_nan (X (Normalize D)) = true)
  /\ (B32.is_zero (Y (Normalize D)) = true \/ B32.is_nan (Y (Normalize D)) = true).
Proof.
  intros H. unfold Size, Normalize. rewrite H. cbn.
  destruct D as [[[] | [] | | [] mx ex] [[] | [] | | [] my ey] z]; cbn;
    repeat split; auto.
Qed.

(** A zero or NaN times an infinity or NaN is NaN. *)
Lemma b64_zero_mul_not_finite (x y : spec_float) :
  B32.is_zero x = true \/ B32.is_nan x = true ->
  B32.is_finite y = false -> B32.is_nan (x * y)%re = true.
Proof.
  destruct x as [sx | | |], y as [| sy | |]; intros [H | H] Hy;
    try discriminate; reflexivity.
Qed.

(** [+infinity] divided by any [float] is an infinity or NaN. *)
Lemma b32_inf_div_not_finite (t : spec_float) :
  B32.is_finite (S754_infinity false / t)%flt = false.
Proof. destruct t as [[] | [] | | [] m e]; reflexivity. Qed.

(** X7.  In the compiled arithmetic, when the squared length of the
    horizontal offset, a [double], overflows to [+infinity], as it does for
    an offset of 2^512 units along an axis, the X and Y of the result are
    NaN, whatever the jump time: the normalised direction is zero and the
    distance is infinite. *)
Theorem CalculateJumpVelocity_overflow :
  forall (StartPos TargetPos : FVector spec_float) (GravityZ JumpTime : spec_float),
    SizeSquared (HorizontalDirection StartPos TargetPos) = S754_infinity false ->
    let v0 := CalculateJumpVelocity StartPos TargetPos GravityZ JumpTime in
    B32.is_nan (X v0) = true /\ B32.is_nan (Y v0) = true.
Proof.
  intros S T g JT H v0. subst v0.
  rewrite CalculateJumpVelocity_X, CalculateJumpVelocity_Y.
  destruct (ieee_overflow_direction _ H) as (Hsize & HX & HY). rewrite Hsize.
  split; apply b64_zero_mul_not_finite;
    auto using of_float_not_finite, b32_inf_div_not_finite.
Qed.

Lemma CalculateJumpVelocity_overflow_witness :
  let v0 := CalculateJumpVelocity
              (mkFVector (B64.of_Z 0) (B64.of_Z 0) (B64.of_Z 0))
              (mkFVector (B64.pow2 512) (B64.of_Z 0) (B64.of_Z 0))
              (B32.of_Z (-980)) (B32.of_Z 2) in
  B32.is_nan (X v0) = true /\ B32.is_nan (Y v0) = true.
Proof.
  refine (@CalculateJumpVelocity_overflow
            (mkFVector (B64.of_Z 0) (B64.of_Z 0) (B64.of_Z 0))
            (mkFVector (B64.pow2 512) (B64.of_Z 0) (B64.of_Z 0))
            (B32.of_Z (-980)) (B32.of_Z 2) _).
  vm_compute. reflexivity.
Defined.

(** Below that, the squares are taken in [double] and do not overflow: the
    jump of 2^64 units along X in two seconds has the velocity 2^63. *)
Example CalculateJumpVelocity_far :
  CalculateJumpVelocity
    (mkFVector (B64.of_Z 0) (B64.of_Z 0) (B64.of_Z 0))
    (mkFVector (B64.pow2 64) (B64.of_Z 0) (B64.of_Z 0))
    (B32.of_Z (-980)) (B32.of_Z 2)
  = mkFVector (B64.pow2 63) (B64.of_Z 0) (B64.of_Z 980).
Proof. vm_compute. reflexivity. Qed.

End JumpVelocityDegenerate.

Section JumpVelocityReturn.

Local Open Scope R_scope.
Local Abbreviation X := FVec.X.
Local Abbreviation Y := FVec.Y.
Local Abbreviation Z := FVec.Z.

(** The horizontal velocity changes sign with the offset, in the dead zone
    of [Normalize] as outside it. *)
Lemma exact_horizontal_velocity_opp (dx dy T : R) :
  let D := mkFVector dx dy 0 in
  let D' := mkFVector (- dx) (- dy) 0 in
  X (Normalize D') * (Size D' / T) = - (X (Normalize D) * (Size D / T))
  /\ Y (Normalize D') * (Size D' / T) = - (Y (Normalize D) * (Size D / T)).
Proof.
  intros D D'.
  assert (HS : SizeSquared D' = SizeSquared D).
  { unfold SizeSquared, D, D'. cbn. ring. }
  unfold Size, Normalize. cbv zeta. rewrite HS.
  destruct (rltb (to_real SMALL_NUMBER) (SizeSquared D)); unfold D, D'; cbn;
    split; ring.
Qed.

(** X8.  In exact arithmetic, for every jump time other than zero, the
    velocity of the jump back, from the target to the start, is the negated
    arrival velocity of the jump there: X and Y change sign, in the dead zone
    of the tolerance too, and Z is [-(v0.z + g * T)]. *)
Theorem CalculateJumpVelocity_return :
  forall (StartPos TargetPos : FVector R) (GravityZ JumpTime : R),
    JumpTime <> 0 ->
    let v0 := CalculateJumpVelocity StartPos TargetPos GravityZ JumpTime in
    let back := CalculateJumpVelocity TargetPos StartPos GravityZ JumpTime in
    X back = - X v0
    /\ Y back = - Y v0
    /\ Z back = - (Z v0 + GravityZ * JumpTime).
Proof.
  intros S T g JT HJT v0 back. subst v0 back.
  rewrite !CalculateJumpVelocity_X, !CalculateJumpVelocity_Y, !CalculateJumpVelocity_Z.
  unfold HorizontalDirection.
  cbn [fsub fmul fdiv f_half f_zero rsub rmul to_real to_float exact].
  replace (X S - X T) with (- (X T - X S)) by ring.
  replace (Y S - Y T) with (- (Y T - Y S)) by ring.
  destruct (exact_horizontal_velocity_opp (X T - X S) (Y T - Y S) JT) as [HX HY].
  repeat split; [exact HX | exact HY | field; exact HJT].
Qed.

Lemma CalculateJumpVelocity_return_witness :
  let v0 := CalculateJumpVelocity (mkFVector 0 0 0) (mkFVector 100 0 50) (-980) 2 in
  let back := CalculateJumpVelocity (mkFVector 100 0 50) (mkFVector 0 0 0) (-980) 2 in
  X back = - X v0
  /\ Y back = - Y v0
  /\ Z back = - (Z v0 + -980 * 2).
Proof.
  refine (@CalculateJumpVelocity_return (mkFVector 0 0 0) (mkFVector 100 0 50)
            (-980) 2 _).
  lra.
Defined.

End JumpVelocityReturn.

(** ** FindClosestActor on arrays *)

Section ClosestActorArrays.

Context {float : Type} {FO : FloatOps float}.
Local Open Scope flt_scope.

Variable AActor : Type.
Variable ActorLocation : AActor -> FVector float.
Variable SourceLocation : FVector float.

Local Abbreviation dist := (DistanceTo ActorLocation SourceLocation).
Local Abbreviation Ptr := (AActorPtr AActor).
Local Abbreviation Out := (Outputs float AActor).
Local Abbreviation step := (step ActorLocation SourceLocation).
Local Abbreviation initial := (@initial float FO AActor).
Local Abbreviation FindClosestActor := (FindClosestActor ActorLocation SourceLocation).

Lemma live_map_Some (l : list AActor) : live (map Some l) = l.
Proof. induction l as [| a l IH]; cbn; [reflexivity | now rewrite IH]. Qed.

Lemma fold_step_live (ActorArray : list Ptr) :
  forall out : Out,
    fold_left step ActorArray out = fold_left step (map Some (live ActorArray)) out.
Proof.
  induction ActorArray as [| [a |] rest IH]; intros out; cbn [live map fold_left].
  - reflexivity.
  - apply IH.
  - cbn [step]. apply IH.
Qed.

(** X9.  In every arithmetic, null entries change nothing: a search returns
    what the search of the array without its null entries returns, outputs
    and position queries alike, also when that array is empty. *)
Theorem FindClosestActor_ignores_null :
  forall (ActorArray : list Ptr) (queries : list AActor),
    FindClosestActor ActorArray queries
    = FindClosestActor (map Some (live ActorArray)) queries.
Proof.
  intros ActorArray queries.
  rewrite !FindClosestActor_fold, live_map_Some, <- fold_step_live. reflexivity.
Qed.

Context {FOrd : FloatOrder FO}.

(** The loop leaves the running best alone or replaces it by an entry that
    is closer. *)
Lemma fold_step_improves (ActorArray : list Ptr) :
  forall out : Out,
    fold_left step ActorArray out = out
    \/ exists a, In (Some a) ActorArray
                 /\ fold_left step ActorArray out = mkOutputs (Some a) (dist a)
                 /\ (dist a <? OutClosestDistance out) = true.
Proof.
  induction ActorArray as [| p rest IH]; intros out.
  - now left.
  - cbn [fold_left]. destruct p as [b |]; cbn [step].
    + destruct (dist b <? OutClosestDistance out) eqn:Hb.
      * right. destruct (IH (mkOutputs (Some b) (dist b))) as [Heq | (a & Hin & Heq & Hlt)].
        -- exists b. rewrite Heq. repeat split; [now left | exact Hb].
        -- exists a. repeat split; [now right | exact Heq |].
           cbn in Hlt. exact (fltb_trans _ _ _ Hlt Hb).
      * destruct (IH out) as [Heq | (a & Hin & Heq & Hlt)]; [now left |].
        right. exists a. repeat split; [now right | exact Heq | exact Hlt].
    + destruct (IH out) as [Heq | (a & Hin & Heq & Hlt)]; [now left |].
      right. exists a. repeat split; [now right | exact Heq | exact Hlt].
Qed.

Lemma fltb_asym (x y : float) : (x <? y) = true -> (y <? x) = false.
Proof.
  intros H. destruct (y <? x) eqn:E; [| reflexivity].
  pose proof (fltb_trans _ _ _ H E) as Hxx. now rewrite fltb_irrefl in Hxx.
Qed.

(** X22.  The [bool] and the outputs agree, for every array: either the call
    returns [false] with a null actor and [MAX_FLT], or it returns [true],
    the actor is a non-null entry of the array, the distance is the distance
    of that entry, and it is less than [MAX_FLT]. *)
Theorem FindClosestActor_result :
  forall ActorArray : list Ptr,
    exists (found : bool) (out : Out),
      FindClosestActor ActorArray [] = Some ((found, out), live ActorArray)
      /\ (found = false -> out = initial)
      /\ (found = true ->
          exists a, In (Some a) ActorArray
                    /\ out = mkOutputs (Some a) (dist a)
                    /\ (dist a <? MAX_FLT) = true).
Proof.
  intros l. rewrite FindClosestActor_fold. cbn [app].
  do 2 eexists. split; [reflexivity |].
  destruct (fold_step_improves l initial) as [Heq | (a & Hin & Heq & Hlt)];
    rewrite Heq; cbn.
  - split; [reflexivity | discriminate].
  - split; [discriminate |]. intros _. exists a. repeat split; assumption.
Qed.

(** X10.  Searching a longer array: with more entries at the end an actor
    that was found stays found and the distance returned does not grow; when
    every non-null entry added is an actor the array already holds, the
    outputs are the same. *)
Theorem FindClosestActor_extend :
  forall ActorArray More : list Ptr,
    exists (found found' : bool) (out out' : Out),
      FindClosestActor ActorArray [] = Some ((found, out), live ActorArray)
      /\ FindClosestActor (ActorArray ++ More) []
         = Some ((found', out'), live ActorArray ++ live More)
      /\ (found = true -> found' = true)
      /\ (OutClosestDistance out <? OutClosestDistance out') = false
      /\ ((forall a, In (Some a) More -> In (Some a) ActorArray) ->
          found' = found /\ out' = out).
Proof.
  intros l l'.
  rewrite !FindClosestActor_fold, fold_left_app, live_app. cbn [app].
  set (out := fold_left step l initial).
  do 4 eexists. split; [reflexivity |]. split; [reflexivity |].
  destruct (fold_step_improves l' out) as [Heq | (a & Hin & Heq & Hlt)].
  - rewrite Heq. split; [auto |]. split; [apply fltb_irrefl | auto].
  - rewrite Heq. cbn. split; [reflexivity |]. split; [apply fltb_asym, Hlt |].
    intros Hdup. specialize (Hdup a Hin).
    pose proof (@fold_step_minimal _ _ _ ActorLocation SourceLocation _
                  l initial a Hdup) as Hmin.
    fold out in Hmin. rewrite Hmin in Hlt. discriminate.
Qed.


(** Two arrays with the same entries, in whatever order: neither search finds
    a closer actor than the other. *)
Lemma fold_step_permutation (l l' : list Ptr) :
  Permutation l l' ->
  let out := fold_left step l initial in
  let out' := fold_left step l' initial in
  is_null (OutClosestActor out) = is_null (OutClosestActor out')
  /\ tied (OutClosestDistance out) (OutClosestDistance out').
Proof.
  intros HP out out'.
  pose proof (@fold_step_minimal _ _ _ ActorLocation SourceLocation _ l initial) as Hmin.
  pose proof (@fold_step_minimal _ _ _ ActorLocation SourceLocation _ l' initial) as Hmin'.
  fold out in Hmin. fold out' in Hmin'.
  destruct (fold_step_improves l initial) as [Heq | (a & Hin & Heq & Hlt)];
    destruct (fold_step_improves l' initial) as [Heq' | (a' & Hin' & Heq' & Hlt')];
    fold out in Heq; fold out' in Heq'; rewrite Heq, Heq' in *.
  - split; [reflexivity | split; apply fltb_irrefl].
  - apply (Permutation_in _ (Permutation_sym HP)) in Hin'.
    rewrite (Hmin a' Hin') in Hlt'. discriminate.
  - apply (Permutation_in _ HP) in Hin.
    rewrite (Hmin' a Hin) in Hlt. discriminate.
  - split; [reflexivity |]. cbn in *. split.
    + apply Hmin'. exact (Permutation_in _ HP Hin).
    + apply Hmin. exact (Permutation_in _ (Permutation_sym HP) Hin').
Qed.

Lemma live_permutation (l l' : list Ptr) :
  Permutation l l' -> Permutation (live l) (live l').
Proof.
  induction 1 as [| [a |] l l' HP IH | [a |] [b |] l | l1 l2 l3 H1 IH1 H2 IH2]; cbn.
  - constructor.
  - now constructor.
  - exact IH.
  - constructor.
  - reflexivity.
  - reflexivity.
  - reflexivity.
  - now transitivity (live l2).
Qed.

(** *** Searching an array in two parts *)

(** The numbers: the values on which the order is total, all of them in
    exact arithmetic, all but NaN in the compiled one. *)
Variable num : float -> Prop.
Hypothesis num_MAX_FLT : num MAX_FLT.
Hypothesis fltb_neg_trans : forall x y z : float,
  num x -> num y -> num z ->
  (x <? y) = false -> (y <? z) = false -> (x <? z) = false.

Lemma fold_step_num (l : list Ptr) (out : Out) :
  num (OutClosestDistance out) ->
  (forall a, In (Some a) l -> num (dist a)) ->
  num (OutClosestDistance (fold_left step l out)).
Proof.
  intros Hout Hl. destruct (fold_step_improves l out) as [-> | (a & Hin & -> & _)].
  - exact Hout.
  - apply Hl, Hin.
Qed.

(** A search that starts from a running best no worse than another one ends
    with the result of the other search if that is closer, and with its own
    running best otherwise. *)
Lemma fold_step_from (l : list Ptr) :
  forall out0 out : Out,
    num (OutClosestDistance out0) -> num (OutClosestDistance out) ->
    (forall a, In (Some a) l -> num (dist a)) ->
    (OutClosestDistance out0 <? OutClosestDistance out) = false ->
    fold_left step l out
    = if OutClosestDistance (fold_left step l out0) <? OutClosestDistance out
      then fold_left step l out0 else out.
Proof.
  induction l as [| p rest IH]; intros out0 out H0 H1 Hl Hle.
  - cbn. now rewrite Hle.
  - cbn [fold_left]. destruct p as [b |]; cbn [step].
    2:{ apply IH; auto. intros a Ha. apply Hl. now right. }
    assert (Hb : num (dist b)) by (apply Hl; now left).
    assert (Hrest : forall a, In (Some a) rest -> num (dist a))
      by (intros a Ha; apply Hl; now right).
    destruct (dist b <? OutClosestDistance out) eqn:E.
    + assert (E0 : (dist b <? OutClosestDistance out0) = true).
      { destruct (dist b <? OutClosestDistance out0) eqn:E0; [reflexivity |].
        rewrite (fltb_neg_trans Hb H0 H1 E0 Hle) in E. discriminate. }
      rewrite E0.
      set (best := mkOutputs (Some b) (dist b)).
      assert (Hfin : (OutClosestDistance (fold_left step rest best)
                      <? OutClosestDistance out) = true).
      { destruct (fold_step_improves rest best) as [-> | (a & _ & -> & Hlt)].
        - exact E.
        - cbn in *. exact (fltb_trans _ _ _ Hlt E). }
      now rewrite Hfin.
    + destruct (dist b <? OutClosestDistance out0) eqn:E0; apply IH; cbn; auto.
Qed.

Lemma fold_step_app (l1 l2 : list Ptr) :
  (forall a, In (Some a) (l1 ++ l2) -> num (dist a)) ->
  let out1 := fold_left step l1 initial in
  let out2 := fold_left step l2 initial in
  fold_left step (l1 ++ l2) initial
  = if OutClosestDistance out2 <? OutClosestDistance out1 then out2 else out1.
Proof.
  intros Hl out1 out2. rewrite fold_left_app. fold out1.
  apply fold_step_from.
  - exact num_MAX_FLT.
  - apply fold_step_num; [exact num_MAX_FLT |].
    intros a Ha. apply Hl, in_or_app. now left.
  - intros a Ha. apply Hl, in_or_app. now right.
  - subst out1. destruct (fold_step_improves l1 initial) as [-> | (a & _ & -> & Hlt)].
    + apply fltb_irrefl.
    + apply fltb_asym, Hlt.
Qed.

Lemma FindClosestActor_app (l1 l2 : list Ptr) :
  (forall a, In (Some a) (l1 ++ l2) -> num (dist a)) ->
  exists r1 r2,
    FindClosestActor l1 [] = Some (r1, live l1)
    /\ FindClosestActor l2 [] = Some (r2, live l2)
    /\ FindClosestActor (l1 ++ l2) [] = Some (closer r1 r2, live l1 ++ live l2).
Proof.
  intros Hl. rewrite !FindClosestActor_fold, live_app, (fold_step_app _ _ Hl).
  cbn [app]. do 2 eexists. split; [reflexivity |]. split; [reflexivity |].
  unfold closer. cbn [snd].
  now destruct (_ <? _).
Qed.

End ClosestActorArrays.

(** On numbers of one format [<] is the strict part of a total preorder. *)
Lemma b32_ltb_neg_trans (x y z : spec_float) :
  B32.is_nan x = false -> B32.is_nan y = false -> B32.is_nan z = false ->
  SFltb x y = false -> SFltb y z = false -> SFltb x z = false.
Proof.
  unfold SFltb, SFcompare.
  destruct x as [[] | [] | | [] mx ex], y as [[] | [] | | [] my ey],
           z as [[] | [] | | [] mz ez];
    try discriminate; try reflexivity; intros _ _ _;
    change (Pos.compare_cont Eq) with Pos.compare;
    intros H1 H2; compare_cases; cbn in *;
    try discriminate; try reflexivity; try lia.
Qed.

Lemma b32_tied_eqb (x y : spec_float) :
  B32.is_nan x = false -> B32.is_nan y = false ->
  SFltb x y = false -> SFltb y x = false -> SFeqb x y = true.
Proof.
  unfold SFltb, SFeqb, SFcompare.
  destruct x as [[] | [] | | [] mx ex], y as [[] | [] | | [] my ey];
    try discriminate; try reflexivity; intros _ _;
    change (Pos.compare_cont Eq) with Pos.compare;
    intros H1 H2; compare_cases; cbn in *;
    try discriminate; try reflexivity; try lia.
Qed.


Section ClosestActorArraysIEEE.

Variable AActor : Type.
Variable ActorLocation : AActor -> FVector spec_float.
Variable SourceLocation : FVector spec_float.

Local Abbreviation dist := (DistanceTo ActorLocation SourceLocation).
Local Abbreviation FindClosestActor := (FindClosestActor ActorLocation SourceLocation).

(** X11.  In the compiled arithmetic, with finite coordinates, searching two
    arrays one after the other is searching each and keeping the closer
    result, that of the first array when neither distance is less. *)
Theorem FindClosestActor_concat :
  forall Front Back : list (AActorPtr AActor),
    finite_vector SourceLocation = true ->
    (forall a, In (Some a) (Front ++ Back) -> finite_vector (ActorLocation a) = true) ->
    exists r1 r2,
      FindClosestActor Front [] = Some (r1, live Front)
      /\ FindClosestActor Back [] = Some (r2, live Back)
      /\ FindClosestActor (Front ++ Back) []
         = Some (closer r1 r2, live Front ++ live Back).
Proof.
  intros Front Back Hsrc Hfin.
  apply (@FindClosestActor_app _ _ _ ActorLocation SourceLocation _
           (fun x => B32.is_nan x = false)).
  - reflexivity.
  - exact b32_ltb_neg_trans.
  - intros a Ha. apply nonneg_not_nan, ieee_Distance_nonneg;
      [exact Hsrc | now apply Hfin].
Qed.

(** X12.  In the compiled arithmetic, with finite coordinates, the order of
    the array decides only which of the actors at the minimum distance is
    returned: a search of the same entries in another order returns the same
    [bool] and a distance that compares equal, after the same position
    queries in another order. *)
Theorem FindClosestActor_permutation :
  forall ActorArray Shuffled : list (AActorPtr AActor),
    Permutation ActorArray Shuffled ->
    finite_vector SourceLocation = true ->
    (forall a, In (Some a) ActorArray -> finite_vector (ActorLocation a) = true) ->
    exists (found : bool) (out out' : Outputs spec_float AActor),
      FindClosestActor ActorArray [] = Some ((found, out), live ActorArray)
      /\ FindClosestActor Shuffled [] = Some ((found, out'), live Shuffled)
      /\ SFeqb (OutClosestDistance out) (OutClosestDistance out') = true
      /\ Permutation (live ActorArray) (live Shuffled).
Proof.
  intros l l' HP Hsrc Hfin.
  rewrite !FindClosestActor_fold. cbn [app].
  destruct (@fold_step_permutation _ _ _ ActorLocation SourceLocation _ l l' HP)
    as (Hnull & Htied1 & Htied2).
  do 3 eexists. split; [reflexivity |]. split; [now rewrite Hnull |].
  split; [| now apply live_permutation].
  assert (Hnum : forall l0, (forall a, In (Some a) l0 -> finite_vector (ActorLocation a) = true) ->
            B32.is_nan (OutClosestDistance
                          (fold_left (step ActorLocation SourceLocation) l0 initial)) = false).
  { intros l0 H0.
    destruct (fold_step_cases ActorLocation SourceLocation l0 initial)
      as [-> | (a & Hin & ->)]; [reflexivity |].
    apply nonneg_not_nan, ieee_Distance_nonneg; [exact Hsrc | now apply H0]. }
  apply b32_tied_eqb; auto.
  apply Hnum. intros a Ha. apply Hfin.
  exact (Permutation_in _ (Permutation_sym HP) Ha).
Qed.

End ClosestActorArraysIEEE.

Section ClosestActorDistance.

Local Open Scope flt_scope.

(** A square root converted to [float] is NaN, a zero, a positive number or
    [+infinity]. *)
Lemma ieee_sqrt_nan_or_nonneg (x : spec_float) :
  B32.is_nan (to_float (rsqrt x)) = true
  \/ B32.is_nonneg (to_float (rsqrt x)) = true.
Proof.
  destruct x as [[] | [] | | [] m e]; cbn; auto.
  right. apply of_real_nonneg, (SFsqrt_nonneg B64.prec B64.emax (S754_finite false m e)).
  reflexivity.
Qed.

(** What is less than [MAX_FLT] and not negative is finite. *)
Lemma b32_below_MAX_FLT_finite (d : spec_float) :
  (d <? MAX_FLT) = true ->
  B32.is_nan d = true \/ B32.is_nonneg d = true ->
  B32.is_finite d = true /\ B32.is_nonneg d = true.
Proof.
  destruct d as [[] | [] | | [] m e]; intros Hlt [H | H];
    try discriminate; split; reflexivity.
Qed.

Variable AActor : Type.
Variable ActorLocation : AActor -> FVector spec_float.
Variable SourceLocation : FVector spec_float.

(** X23.  In the compiled arithmetic, for all positions, NaN and infinities
    included, the distance [FindClosestActor] returns is a finite number that
    is not negative: [MAX_FLT], or a computed distance less than [MAX_FLT].
    An actor whose distance is NaN or infinite is never the closest. *)
Theorem FindClosestActor_distance_finite :
  forall ActorArray : list (AActorPtr AActor),
    exists (found : bool) (out : Outputs spec_float AActor),
      FindClosestActor ActorLocation SourceLocation ActorArray []
        = Some ((found, out), live ActorArray)
      /\ B32.is_finite (OutClosestDistance out) = true
      /\ B32.is_nonneg (OutClosestDistance out) = true.
Proof.
  intros l. rewrite FindClosestActor_fold. cbn [app].
  do 2 eexists. split; [reflexivity |].
  destruct (@fold_step_improves _ _ _ ActorLocation SourceLocation _ l initial)
    as [-> | (a & _ & -> & Hlt)].
  - split; reflexivity.
  - cbn [OutClosestDistance] in *. apply b32_below_MAX_FLT_finite; [exact Hlt |].
    apply ieee_sqrt_nan_or_nonneg.
Qed.

End ClosestActorDistance.

Section ClosestActorArraysScenarios.

Local Open Scope flt_scope.

Lemma FindClosestActor_result_witness :
  exists (found : bool) (out : Outputs spec_float S5.Actor),
    FindClosestActor S5.Location S5.Source S5.Entities []
      = Some ((found, out), live S5.Entities)
    /\ (found = false -> out = initial)
    /\ (found = true ->
        exists a, In (Some a) S5.Entities
                  /\ out = mkOutputs (Some a) (DistanceTo S5.Location S5.Source a)
                  /\ (DistanceTo S5.Location S5.Source a <? MAX_FLT) = true).
Proof.
  exact (@FindClosestActor_result _ ieee _ S5.Location S5.Source _ S5.Entities).
Defined.

Lemma FindClosestActor_extend_witness :
  exists (found found' : bool) (out out' : Outputs spec_float S5.Actor),
    FindClosestActor S5.Location S5.Source [nullptr; Some S5.ActorA] []
      = Some ((found, out), live [nullptr; Some S5.ActorA])
    /\ FindClosestActor S5.Location S5.Source
         ([nullptr; Some S5.ActorA] ++ [Some S5.ActorB; nullptr; Some S5.ActorA]) []
       = Some ((found', out'),
               live [nullptr; Some S5.ActorA]
               ++ live [Some S5.ActorB; nullptr; Some S5.ActorA])
    /\ (found = true -> found' = true)
    /\ (OutClosestDistance out <? OutClosestDistance out') = false
    /\ ((forall a, In (Some a) [Some S5.ActorB; nullptr; Some S5.ActorA] ->
                   In (Some a) [nullptr; Some S5.ActorA]) ->
        found' = found /\ out' = out).
Proof.
  exact (@FindClosestActor_extend _ ieee _ S5.Location S5.Source _
           [nullptr; Some S5.ActorA] [Some S5.ActorB; nullptr; Some S5.ActorA]).
Defined.

Lemma FindClosestActor_concat_witness :
  exists r1 r2,
    FindClosestActor S5.Location S5.Source [nullptr; Some S5.ActorA] []
      = Some (r1, live [nullptr; Some S5.ActorA])
    /\ FindClosestActor S5.Location S5.Source [Some S5.ActorB; nullptr; Some S5.ActorC] []
       = Some (r2, live [Some S5.ActorB; nullptr; Some S5.ActorC])
    /\ FindClosestActor S5.Location S5.Source
         ([nullptr; Some S5.ActorA] ++ [Some S5.ActorB; nullptr; Some S5.ActorC]) []
       = Some (closer r1 r2,
               live [nullptr; Some S5.ActorA]
               ++ live [Some S5.ActorB; nullptr; Some S5.ActorC]).
Proof.
  refine (@FindClosestActor_concat _ S5.Location S5.Source
            [nullptr; Some S5.ActorA] [Some S5.ActorB; nullptr; Some S5.ActorC] _ _).
  - vm_compute. reflexivity.
  - intros [] _; vm_compute; reflexivity.
Defined.

Lemma FindClosestActor_permutation_witness :
  exists (found : bool) (out out' : Outputs spec_float S5.Actor),
    FindClosestActor S5.Location S5.Source [Some S5.ActorB; Some S5.ActorC] []
      = Some ((found, out), live [Some S5.ActorB; Some S5.ActorC])
    /\ FindClosestActor S5.Location S5.Source [Some S5.ActorC; Some S5.ActorB] []
       = Some ((found, out'), live [Some S5.ActorC; Some S5.ActorB])
    /\ SFeqb (OutClosestDistance out) (OutClosestDistance out') = true
    /\ Permutation (live [Some S5.ActorB; Some S5.ActorC])
                   (live [Some S5.ActorC; Some S5.ActorB]).
Proof.
  refine (@FindClosestActor_permutation _ S5.Location S5.Source
            [Some S5.ActorB; Some S5.ActorC] [Some S5.ActorC; Some S5.ActorB]
            (perm_swap _ _ _) _ _).
  - vm_compute. reflexivity.
  - intros [] _; vm_compute; reflexivity.
Defined.

End ClosestActorArraysScenarios.

(** ** The interpolation parameter in binary32 *)

Section InterpAlphaBinary32.

Local Open Scope flt_scope.

(** NaN is less than nothing and nothing is less than NaN. *)
Lemma b32_ltb_nan_l (x y : spec_float) : B32.is_nan x = true -> (x <? y) = false.
Proof. destruct x; try discriminate. reflexivity. Qed.

Lemma b32_ltb_not_nan (x y : spec_float) : (x <? y) = true -> B32.is_nan x = false.
Proof. destruct x; try reflexivity. discriminate. Qed.

(** X13.  In binary32 the interpolation parameter is a number between 0 and
    1 for all values of [DeltaTime] and [InterpSpeed], infinities and NaN
    included: the clamp never returns NaN. *)
Theorem InterpAlpha_unit_interval :
  forall DeltaTime InterpSpeed : spec_float,
    SFleb B32.zero (InterpAlpha DeltaTime InterpSpeed) = true
    /\ SFleb (InterpAlpha DeltaTime InterpSpeed) B32.one = true.
Proof.
  intros DeltaTime InterpSpeed. unfold InterpAlpha, Clamp.
  set (p := DeltaTime * InterpSpeed).
  change (@f_zero _ ieee) with B32.zero. change (@f_one _ ieee) with B32.one.
  destruct (p <? B32.zero) eqn:E0; [split; reflexivity |].
  destruct (p <? B32.one) eqn:E1; [| split; reflexivity].
  pose proof (@b32_ltb_not_nan _ _ E1) as Hp. split.
  - apply SFltb_false_SFleb; [reflexivity | exact Hp | exact E0].
  - revert E1. unfold fltb, ieee, SFltb, SFleb.
    destruct (SFcompare p B32.one) as [[] |]; try discriminate; reflexivity.
Qed.

(** X14.  In binary32, when the product [DeltaTime * InterpSpeed] is NaN (a
    NaN factor, or zero times an infinity), both comparisons of the clamp are
    false and the parameter is 1: the interpolation goes all the way to
    [Target]. *)
Theorem InterpAlpha_nan :
  forall DeltaTime InterpSpeed : spec_float,
    B32.is_nan (DeltaTime * InterpSpeed) = true ->
    InterpAlpha DeltaTime InterpSpeed = B32.one.
Proof.
  intros DeltaTime InterpSpeed Hnan. unfold InterpAlpha, Clamp.
  rewrite !b32_ltb_nan_l by exact Hnan. reflexivity.
Qed.

Lemma InterpAlpha_nan_witness :
  InterpAlpha B32.zero (S754_infinity false) = B32.one.
Proof.
  refine (@InterpAlpha_nan B32.zero (S754_infinity false) _). reflexivity.
Defined.

(** The product of two negated factors is the product of the factors. *)
Lemma b32_mul_opp_opp (x y : spec_float) : SFopp x * SFopp y = x * y.
Proof.
  destruct x as [[] | [] | | [] mx ex], y as [[] | [] | | [] my ey]; reflexivity.
Qed.

(** X15.  In binary32, changing the sign of both [DeltaTime] and
    [InterpSpeed] leaves the interpolation parameter as it is: a negative
    time step with a negative speed interpolates like the positive pair. *)
Theorem InterpAlpha_opp_opp :
  forall DeltaTime InterpSpeed : spec_float,
    InterpAlpha (SFopp DeltaTime) (SFopp InterpSpeed) = InterpAlpha DeltaTime InterpSpeed.
Proof.
  intros DeltaTime InterpSpeed. unfold InterpAlpha. now rewrite b32_mul_opp_opp.
Qed.

End InterpAlphaBinary32.

(** ** The editor module of PythonTools *)

Section PythonToolsEditor.

Import PythonTools.

Local Notation "c ;; k" := (bind c (fun _ => k))
  (at level 61, right associativity).

Lemma registry_app (calls more : list Effect) :
  registry (calls ++ more) = fold_left register more (registry calls).
Proof. unfold registry. apply fold_left_app. Qed.

Lemma executed_app (calls more : list Effect) :
  executed (calls ++ more) = executed calls ++ executed more.
Proof.
  induction calls as [| e calls IH]; [reflexivity |].
  destruct e; cbn; rewrite IH; reflexivity.
Qed.

(** [Create] reads the state and leaves it alone; the style set it builds
    has the name of the style set and one brush. *)
Lemma Create_result (E : Engine) (s s' : State) (Style : FSlateStyleSet) :
  Create E s = Some (Style, s') ->
  s' = s
  /\ StyleSetName Style = GetStyleSetName
  /\ exists Brush, BrushResources Style
                   = [(snd (Icon (RegisterCommands FPythonToolsEditorCommands)), Brush)]
                   /\ ImageSize Brush = Icon20x20.
Proof.
  unfold Create, bind, deref, ret.
  destruct (FindPlugin E _) as [BaseDir |]; [| discriminate].
  intros H. injection H as <- <-. split; [reflexivity |]. split; [reflexivity |].
  eexists. split; reflexivity.
Qed.

(** X16.  The icon of the command [PluginAction] is found in the style set
    the plugin registers: the style set [Create] builds has the name the
    command context gives for its icons, which is [GetStyleSetName], and holds
    a 20 by 20 brush under the icon's name [<context>.<command>]; [Create]
    changes nothing in the module. *)
Theorem PluginAction_icon_resolves :
  forall (E : Engine) (s s' : State) (Style : FSlateStyleSet),
    Create E s = Some (Style, s') ->
    let PluginAction := RegisterCommands FPythonToolsEditorCommands in
    s' = s
    /\ StyleSetName Style = fst (Icon PluginAction)
    /\ GetStyleSetName = fst (Icon PluginAction)
    /\ exists Brush,
         GetBrush (BrushResources Style) (snd (Icon PluginAction)) = Some Brush
         /\ ImageSize Brush = Icon20x20.
Proof.
  intros E s s' Style H PluginAction.
  destruct (Create_result _ _ H) as (Hs & Hname & Brush & Hbrushes & Hsize).
  split; [exact Hs |]. split; [exact Hname |]. split; [reflexivity |].
  exists Brush. split; [| exact Hsize].
  rewrite Hbrushes. cbn [GetBrush]. now rewrite String.eqb_refl.
Qed.

Lemma PluginAction_icon_resolves_witness :
  exists Style,
    Create (SampleEngine true) Unloaded = Some (Style, Unloaded)
    /\ StyleSetName Style = fst (Icon (RegisterCommands FPythonToolsEditorCommands))
    /\ exists Brush,
         GetBrush (BrushResources Style)
           (snd (Icon (RegisterCommands FPythonToolsEditorCommands))) = Some Brush
         /\ ImageSize Brush = Icon20x20.
Proof.
  eexists. split; [cbv; reflexivity |].
  refine (let H := @PluginAction_icon_resolves (SampleEngine true) Unloaded Unloaded _ _ in
          conj (proj1 (proj2 H)) (proj2 (proj2 (proj2 H)))).
  reflexivity.
Defined.

(** What [Initialize] does from a null and from a valid [StyleInstance]. *)
Lemma Initialize_cases (E : Engine) (s : State) :
  match StyleInstance s with
  | Some _ => Initialize E s = Some (tt, s)
  | None =>
      match Create E s with
      | None => Initialize E s = None
      | Some (Style, _) =>
          Initialize E s
          = Some (tt, {| StyleInstance := Some Style;
                         PluginCommands := PluginCommands s;
                         Effects := Effects s ++ [RegisterSlateStyle Style] |})
      end
  end.
Proof.
  unfold Initialize, bind, get_StyleInstance.
  destruct (StyleInstance s) as [Style |] eqn:HS; cbn [IsValid negb].
  - reflexivity.
  - destruct (Create E s) as [[Style s'] |] eqn:HC; [| reflexivity].
    destruct (Create_result _ _ HC) as (-> & _). reflexivity.
Qed.

(** X17.  [Initialize] is idempotent: after a call that returned, a second
    call, in whatever state the editor is then, changes nothing and registers
    nothing. *)
Theorem Initialize_idempotent :
  forall (E E' : Engine) (s s' : State),
    Initialize E s = Some (tt, s') ->
    Initialize E' s' = Some (tt, s').
Proof.
  intros E E' s s' H.
  pose proof (Initialize_cases E s) as Hs.
  pose proof (Initialize_cases E' s') as Hs'.
  destruct (StyleInstance s') as [Style' |] eqn:HS'; [exact Hs' |].
  exfalso. destruct (StyleInstance s) as [Style |] eqn:HS.
  - rewrite Hs in H. injection H as <-. congruence.
  - destruct (Create E s) as [[Style s1] |]; rewrite Hs in H; [| discriminate].
    injection H as <-. discriminate.
Qed.

Lemma Initialize_idempotent_witness :
  exists s',
    Initialize (SampleEngine true) Unloaded = Some (tt, s')
    /\ Initialize (SampleEngine false) s' = Some (tt, s').
Proof.
  eexists. split; [cbv; reflexivity |].
  refine (@Initialize_idempotent (SampleEngine true) (SampleEngine false) Unloaded _ _).
  reflexivity.
Defined.

Lemma Shutdown_cases (s : State) :
  Shutdown s
  = match StyleInstance s with
    | None => None
    | Some Style =>
        Some (tt, {| StyleInstance := None;
                     PluginCommands := PluginCommands s;
                     Effects := Effects s ++ [UnRegisterSlateStyle Style] |})
    end.
Proof.
  unfold Shutdown, bind, get_StyleInstance, deref.
  destruct (StyleInstance s) as [Style |] eqn:HS; [| reflexivity].
  cbn. rewrite HS. reflexivity.
Qed.

(** X18.  [Initialize] from a null [StyleInstance], then [Shutdown]:
    [Initialize] leaves a valid [StyleInstance], [Shutdown] returns,
    unregisters the style set [Initialize] registered, and leaves
    [StyleInstance] null again and the command list as it was. *)
Theorem Initialize_Shutdown :
  forall (E : Engine) (s s1 : State),
    StyleInstance s = None ->
    Initialize E s = Some (tt, s1) ->
    exists Style,
      StyleInstance s1 = Some Style
      /\ Shutdown s1
         = Some (tt, {| StyleInstance := None;
                        PluginCommands := PluginCommands s;
                        Effects := Effects s ++ [RegisterSlateStyle Style;
                                                 UnRegisterSlateStyle Style] |}).
Proof.
  intros E s s1 HS H.
  pose proof (Initialize_cases E s) as Hs. rewrite HS in Hs.
  destruct (Create E s) as [[Style s'] |]; rewrite Hs in H; [| discriminate].
  injection H as <-. exists Style. split; [reflexivity |].
  rewrite Shutdown_cases. cbn. now rewrite <- app_assoc.
Qed.

Lemma Initialize_Shutdown_witness :
  exists s1 Style,
    Initialize (SampleEngine true) Unloaded = Some (tt, s1)
    /\ StyleInstance s1 = Some Style
    /\ Shutdown s1
       = Some (tt, {| StyleInstance := None;
                      PluginCommands := None;
                      Effects := [RegisterSlateStyle Style; UnRegisterSlateStyle Style] |}).
Proof.
  eexists.
  refine (let H := @Initialize_Shutdown (SampleEngine true) Unloaded _ eq_refl eq_refl in
          match H with ex_intro _ Style HStyle => ex_intro _ Style (conj eq_refl HStyle) end).
Defined.

(** X19.  [Shutdown] is not guarded as [Initialize] is: in every state, a
    second [Shutdown] in a row, or a [Get] after a [Shutdown], dereferences
    the null [StyleInstance]. *)
Theorem Shutdown_twice :
  forall s : State,
    (Shutdown ;; Shutdown) s = None
    /\ (Shutdown ;; Get) s = None.
Proof.
  intros s. split; unfold bind; rewrite Shutdown_cases;
    destruct (StyleInstance s) as [Style |]; reflexivity.
Qed.

Lemma PluginButtonClicked_cases (E : Engine) (s : State) :
  exists Message,
    PluginButtonClicked E s
    = Some (tt, {| StyleInstance := StyleInstance s;
                   PluginCommands := PluginCommands s;
                   Effects := Effects s
                              ++ [if IsAvailable E
                                  then ExecPythonCommand SampleScript
                                  else UE_LOG Warning Message] |}).
Proof.
  unfold PluginButtonClicked, RunPythonScript.
  destruct (IsAvailable E);
    [exists Stdlib.Strings.String.EmptyString | eexists]; reflexivity.
Qed.

(** X20.  A click on the button always returns and leaves the pointers and
    the registrations alone; it runs one script, the sample script, when the
    Python plugin is available, and runs nothing when it is not. *)
Theorem PluginButtonClicked_runs_when_available :
  forall (E : Engine) (s : State),
    exists s',
      PluginButtonClicked E s = Some (tt, s')
      /\ StyleInstance s' = StyleInstance s
      /\ PluginCommands s' = PluginCommands s
      /\ registry (Effects s') = registry (Effects s)
      /\ executed (Effects s')
         = executed (Effects s) ++ (if IsAvailable E then [SampleScript] else []).
Proof.
  intros E s. destruct (PluginButtonClicked_cases E s) as [Message H].
  eexists. split; [exact H |]. cbn [StyleInstance PluginCommands Effects].
  rewrite registry_app, executed_app.
  destruct (IsAvailable E); cbn; rewrite ?app_nil_r; auto.
Qed.

Lemma InitializePythonPaths_cases (E : Engine) :
  exists calls,
    (forall s, InitializePythonPaths E s
       = Some (tt, {| StyleInstance := StyleInstance s;
                      PluginCommands := PluginCommands s;
                      Effects := Effects s ++ calls |}))
    /\ (forall R, fold_left register calls R
          = {| SlateStyles := SlateStyles R;
               CommandContexts := CommandContexts R;
               StartupCallbacks := StartupCallbacks R;
               PythonPaths := PythonPaths R
                              ++ (if IsAvailable E
                                  then [PluginPythonPath E; ProjectPythonPath E]
                                  else []) |})
    /\ executed calls = [].
Proof.
  unfold InitializePythonPaths. destruct (IsAvailable E).
  - eexists. split; [| split].
    + intros s. unfold bind, call. cbn. rewrite <- !app_assoc. cbn. reflexivity.
    + intros R. cbn. now rewrite <- app_assoc.
    + reflexivity.
  - eexists. split; [| split].
    + intros s. unfold call. reflexivity.
    + intros [a b c d]. cbn. now rewrite app_nil_r.
    + reflexivity.
Qed.

(** [StartupModule] from a null [StyleInstance]: it stops in [Create], or
    registers the style set, the command context and the startup callback,
    maps the action and sets up the Python paths. *)
Lemma StartupModule_cases (E : Engine) (s : State) :
  StyleInstance s = None ->
  match Create E s with
  | None => StartupModule E s = None
  | Some (Style, _) =>
      exists calls,
        StartupModule E s
        = Some (tt, {| StyleInstance := Some Style;
                       PluginCommands := Some [CallPluginButtonClicked];
                       Effects := Effects s
                                  ++ RegisterSlateStyle Style
                                     :: (if SlateIsInitialized E
                                         then [ReloadTextureResources] else [])
                                     ++ RegisterCommandContext
                                     :: RegisterStartupCallback :: calls |})
        /\ (forall R, fold_left register calls R
              = {| SlateStyles := SlateStyles R;
                   CommandContexts := CommandContexts R;
                   StartupCallbacks := StartupCallbacks R;
                   PythonPaths := PythonPaths R
                                  ++ (if IsAvailable E
                                      then [PluginPythonPath E; ProjectPythonPath E]
                                      else []) |})
        /\ executed calls = []
  end.
Proof.
  intros HS.
  pose proof (Initialize_cases E s) as Hi. rewrite HS in Hi.
  destruct (Create E s) as [[Style s'] |]; unfold StartupModule; unfold bind at 1;
    rewrite Hi; [| reflexivity].
  destruct (InitializePythonPaths_cases E) as (calls & Hp & Hreg & Hexec).
  exists calls. split; [| now repeat split].
  unfold ReloadTextures, bind, call, ret, set_PluginCommands, MapAction,
    get_PluginCommands, deref.
  destruct (SlateIsInitialized E); cbn; rewrite Hp; cbn;
    repeat (rewrite <- app_assoc; cbn); reflexivity.
Qed.

(** X21.  [StartupModule] from a null [StyleInstance], then
    [ShutdownModule]: [ShutdownModule] returns and leaves [StyleInstance]
    null; the style set, the command context and the startup callback that
    [StartupModule] registered are unregistered again, no script was run, and
    what stays is the command list and, when the Python plugin is available,
    the two directories added to the Python path, the plugin's before the
    project's. *)
Theorem StartupModule_ShutdownModule :
  forall (E : Engine) (s s1 : State),
    StyleInstance s = None ->
    StartupModule E s = Some (tt, s1) ->
    exists s2,
      ShutdownModule s1 = Some (tt, s2)
      /\ StyleInstance s2 = None
      /\ PluginCommands s2 = Some [CallPluginButtonClicked]
      /\ registry (Effects s2)
         = {| SlateStyles := SlateStyles (registry (Effects s));
              CommandContexts := CommandContexts (registry (Effects s));
              StartupCallbacks := StartupCallbacks (registry (Effects s));
              PythonPaths := PythonPaths (registry (Effects s))
                             ++ (if IsAvailable E
                                 then [PluginPythonPath E; ProjectPythonPath E]
                                 else []) |}
      /\ executed (Effects s2) = executed (Effects s).
Proof.
  intros E s s1 HS H.
  pose proof (StartupModule_cases E s HS) as Hc.
  destruct (Create E s) as [[Style s'] |]; [| rewrite Hc in H; discriminate].
  destruct Hc as (calls & Hstart & Hreg & Hexec).
  rewrite Hstart in H. injection H as <-.
  eexists. split; [reflexivity |]. cbn [StyleInstance PluginCommands Effects].
  split; [reflexivity |]. split; [reflexivity |].
  rewrite <- !app_assoc. split.
  - rewrite registry_app. generalize (registry (Effects s)). intros R.
    destruct (SlateIsInitialized E); cbn [app fold_left];
      rewrite fold_left_app, Hreg; cbn; f_equal; lia.
  - rewrite !executed_app.
    destruct (SlateIsInitialized E); cbn [app executed];
      rewrite Hexec; now rewrite app_nil_r.
Qed.

Lemma StartupModule_ShutdownModule_witness :
  exists s1 s2,
    StartupModule (SampleEngine false) Unloaded = Some (tt, s1)
    /\ ShutdownModule s1 = Some (tt, s2)
    /\ StyleInstance s2 = None
    /\ registry (Effects s2) = registry [].
Proof.
  destruct (StartupModule (SampleEngine false) Unloaded) as [[[] s1] |] eqn:H1;
    [| vm_compute in H1; discriminate].
  destruct (@StartupModule_ShutdownModule (SampleEngine false) Unloaded s1
              eq_refl H1) as (s2 & H2 & H3 & _ & H4 & _).
  exists s1, s2. repeat split; assumption.
Defined.

End PythonToolsEditor.
